(** * Kelly Criterion calculator ([app.js]): model and verified properties

    The calculator works on JavaScript Numbers, i.e. IEEE 754 binary64
    values.  A Number is modelled by [number]: [NaN], the two infinities, or
    a finite value carried as an exact rational.  Every arithmetic operation
    computes the exact rational result and rounds it to the nearest binary64
    value, ties to even, overflowing to an infinity ([round64]); this is how
    IEEE 754 defines [+], [-], [*] and [/].

    The two IEEE zeros are identified (both are [Fin 0]).  [update] compares
    Numbers with [<=], [>=] and [>] only and never divides by a zero, so it
    cannot observe the sign of a zero.

    Text is modelled by [text], the sequence of UTF-16 code units of a
    JavaScript string; the white space that [trim] and [Number] strip is
    the ECMAScript set of WhiteSpace and LineTerminator code points.

    [Math.log] is a parameter of the model.  [update] is modelled by the
    values it computes ([update]) and by what it writes into the output
    fields ([display]) and, for invalid input, into the breakdown
    ([invalid_breakdown]); the step-by-step breakdown of a valid run is not
    part of the model. *)

From Stdlib Require Import ZArith QArith Qround Qabs Qpower Qreduction.
From Stdlib Require Import String Ascii List Bool Lia Lqa.
From Stdlib Require SpecFloat.
Import ListNotations.

Local Open Scope Q_scope.

(** ** JavaScript Numbers *)

Inductive number : Type :=
| NaN
| PInf
| NInf
| Fin (q : Q).

Module Double.

(** binary64: 53 bits of precision, least exponent of a unit in the last
    place -1074, overflow threshold 2^1024. *)
Definition prec : Z := 53.
Definition emin : Z := (-1074)%Z.
Definition emax : Z := 1024%Z.

Definition pow2 (e : Z) : Q := 2 ^ e.

(** [ilog2 a] is the integer part of the binary logarithm of [a > 0]. *)
Definition ilog2 (a : Q) : Z :=
  let k := (Z.log2 (Qnum a) - Z.log2 (Zpos (Qden a)))%Z in
  if Qle_bool (pow2 k) a then k else (k - 1)%Z.

(** Nearest integer, ties to even. *)
Definition rne (s : Q) : Z :=
  let f := Qfloor s in
  match Qcompare (s - inject_Z f) (1 # 2) with
  | Lt => f
  | Gt => (f + 1)%Z
  | Eq => if Z.even f then f else (f + 1)%Z
  end.

(** Exponent of the unit in the last place used for a magnitude [a]:
    52 binary places below the leading bit, but never below [emin]
    (subnormal range). *)
Definition ulp_exp (a : Q) : Z := Z.max (ilog2 a - (prec - 1)) emin.

(** Rounding of a magnitude [a >= 0], exponent range unbounded above. *)
Definition round_abs (a : Q) : Q :=
  let e := ulp_exp a in
  inject_Z (rne (a / pow2 e)) * pow2 e.

(** Rounding of an exact result to a Number. *)
Definition round64 (x : Q) : number :=
  let r := round_abs (Qabs x) in
  if Qle_bool (pow2 emax) r
  then (if Qlt_le_dec x 0 then NInf else PInf)
  else Fin (Qred (if Qlt_le_dec x 0 then - r else r)).

(** The same rounding as a signed rational, before the overflow test. *)
Definition sround (x : Q) : Q :=
  if Qlt_le_dec x 0 then - round_abs (Qabs x) else round_abs (Qabs x).

(** Magnitudes of the binary64 format: an integer significand below 2^53
    scaled by a power of two not below the least one. *)
Definition representable (a : Q) : Prop :=
  exists m e,
    a == inject_Z m * pow2 e /\ (0 <= m < 2 ^ 53)%Z /\ (emin <= e)%Z.

(** [Number.MIN_VALUE] and [Number.MAX_VALUE]. *)
Definition MIN_VALUE : Q := Eval vm_compute in Qred (pow2 emin).

End Double.

Import Double.

(** The Numbers that can occur at run time: a finite one is a binary64 value. *)
Definition js_number (n : number) : Prop :=
  match n with
  | Fin q => round64 q = Fin q
  | _ => True
  end.

(** *** Arithmetic (ECMAScript Number::add, subtract, multiply, divide) *)

Definition neg (a : number) : number :=
  match a with
  | NaN => NaN
  | PInf => NInf
  | NInf => PInf
  | Fin x => Fin (- x)
  end.

Definition add (a b : number) : number :=
  match a, b with
  | NaN, _ | _, NaN => NaN
  | PInf, NInf | NInf, PInf => NaN
  | PInf, _ | _, PInf => PInf
  | NInf, _ | _, NInf => NInf
  | Fin x, Fin y => round64 (x + y)
  end.

Definition sub (a b : number) : number := add a (neg b).

(** Sign of a finite value: [Gt] positive, [Eq] zero, [Lt] negative. *)
Definition sgn (x : Q) : comparison := Qcompare x 0.

Definition inf_of (s : comparison) : number :=
  match s with
  | Gt => PInf
  | Lt => NInf
  | Eq => NaN
  end.

Definition sgn_num (a : number) : comparison :=
  match a with
  | NaN => Eq
  | PInf => Gt
  | NInf => Lt
  | Fin x => sgn x
  end.

Definition sgn_mul (s t : comparison) : comparison :=
  match s, t with
  | Eq, _ | _, Eq => Eq
  | Gt, Gt | Lt, Lt => Gt
  | _, _ => Lt
  end.

Definition mul (a b : number) : number :=
  match a, b with
  | NaN, _ | _, NaN => NaN
  | Fin x, Fin y => round64 (x * y)
  | _, _ => inf_of (sgn_mul (sgn_num a) (sgn_num b))
  end.

(** A zero divisor is taken as [+0]. *)
Definition div (a b : number) : number :=
  match a, b with
  | NaN, _ | _, NaN => NaN
  | Fin x, Fin y =>
      if Qeq_bool y 0 then inf_of (sgn x) else round64 (x / y)
  | Fin _, _ => Fin 0
  | _, Fin y => inf_of (sgn_mul (sgn_num a) (if Qeq_bool y 0 then Gt else sgn y))
  | _, _ => NaN
  end.

(** *** Comparisons: every comparison with [NaN] is false *)

Definition le (a b : number) : bool :=
  match a, b with
  | NaN, _ | _, NaN => false
  | NInf, _ | _, PInf => true
  | _, NInf | PInf, _ => false
  | Fin x, Fin y => Qle_bool x y
  end.

Definition lt (a b : number) : bool :=
  match a, b with
  | NaN, _ | _, NaN => false
  | _, NInf | PInf, _ => false
  | NInf, _ | _, PInf => true
  | Fin x, Fin y => negb (Qle_bool y x)
  end.

Definition ge (a b : number) : bool := le b a.
Definition gt (a b : number) : bool := lt b a.

(** [Number.isFinite] *)
Definition isFinite (a : number) : bool :=
  match a with
  | Fin _ => true
  | _ => false
  end.

(** [Math.max] and [Math.min] of two arguments: [NaN] if either is. *)
Definition Math_max (a b : number) : number :=
  match a, b with
  | NaN, _ | _, NaN => NaN
  | _, _ => if lt a b then b else a
  end.

Definition Math_min (a b : number) : number :=
  match a, b with
  | NaN, _ | _, NaN => NaN
  | _, _ => if lt b a then b else a
  end.

(** ** Text *)

(** A JavaScript string is a sequence of UTF-16 code units. *)
Definition code_unit : Type := N.

Definition text : Type := list code_unit.

(** The code unit of an ASCII character. *)
Definition code (c : ascii) : code_unit := N_of_ascii c.

(** The code points spelled by bytes in UTF-8; an incomplete sequence at the
    end gives U+FFFD. *)
Fixpoint code_points (bytes : list N) : list N :=
  match bytes with
  | [] => []
  | a :: r =>
      if (a <? 128)%N then a :: code_points r
      else
        match r with
        | [] => [65533%N]
        | b :: r1 =>
            if (a <? 224)%N
            then ((a mod 32) * 64 + b mod 64)%N :: code_points r1
            else
              match r1 with
              | [] => [65533%N]
              | c :: r2 =>
                  if (a <? 240)%N
                  then ((a mod 16) * 4096 + (b mod 64) * 64 + c mod 64)%N
                       :: code_points r2
                  else
                    match r2 with
                    | [] => [65533%N]
                    | d :: r3 =>
                        ((a mod 8) * 262144 + (b mod 64) * 4096
                         + (c mod 64) * 64 + d mod 64)%N
                        :: code_points r3
                    end
              end
        end
  end.

(** The code units of a code point: itself, or a surrogate pair. *)
Definition utf16 (cp : N) : list code_unit :=
  if (cp <? 65536)%N then [cp]
  else let v := (cp - 65536)%N in
       [(55296 + v / 1024)%N; (56320 + v mod 1024)%N].

(** The text written by a string literal (literals here hold UTF-8). *)
Definition of_string (s : string) : text :=
  flat_map utf16 (code_points (map N_of_ascii (list_ascii_of_string s))).

(** ECMAScript WhiteSpace and LineTerminator: TAB, LF, VT, FF, CR, SP,
    U+00A0, U+1680, U+2000 to U+200A, U+2028, U+2029, U+202F, U+205F,
    U+3000 and U+FEFF. *)
Definition is_space (c : code_unit) : bool :=
  ((9 <=? c) && (c <=? 13) || (c =? 32) || (c =? 160) || (c =? 5760)
   || (8192 <=? c) && (c <=? 8202) || (c =? 8232) || (c =? 8233)
   || (c =? 8239) || (c =? 8287) || (c =? 12288) || (c =? 65279))%N.

Fixpoint trim_start (s : text) : text :=
  match s with
  | c :: r => if is_space c then trim_start r else s
  | [] => []
  end.

(** [String.prototype.trim] *)
Definition trim (s : text) : text :=
  rev (trim_start (rev (trim_start s))).

(** A text that does not start with white space. *)
Definition head_not_space (s : text) : Prop :=
  match s with
  | c :: _ => is_space c = false
  | [] => True
  end.

(** [String.prototype.split] with a one-character separator: the pieces
    between the occurrences of [sep]; a text without [sep] is one piece. *)
Fixpoint split (sep : code_unit) (s : text) : list text :=
  match s with
  | [] => [[]]
  | c :: r =>
      if N.eqb c sep then [] :: split sep r
      else match split sep r with
           | p :: ps => (c :: p) :: ps
           | [] => [[c]]
           end
  end.

(** *** [Number(text)]: ECMAScript StringToNumber

    White space is trimmed; the empty text is [0]; a literal is [Infinity]
    with an optional sign, a signed decimal literal with optional fraction and
    exponent, or an unsigned binary, octal or hexadecimal integer; any other
    text is [NaN].  The exact value of the literal is rounded to a Number. *)

Definition digit_of (base : Z) (c : code_unit) : option Z :=
  let n := Z.of_N c in
  let d := if ((48 <=? n) && (n <=? 57))%Z then (n - 48)%Z
           else if ((97 <=? n) && (n <=? 102))%Z then (n - 87)%Z
           else if ((65 <=? n) && (n <=? 70))%Z then (n - 55)%Z
           else 99%Z in
  if (d <? base)%Z then Some d else None.

(** Longest prefix of digits in [base]: its value scaled by [acc], the number
    of digits read, and the rest of the text. *)
Fixpoint digits (base : Z) (acc : Z) (n : nat) (s : text) : Z * nat * text :=
  match s with
  | c :: r =>
      match digit_of base c with
      | Some d => digits base (acc * base + d) (S n) r
      | None => (acc, n, s)
      end
  | [] => (acc, n, [])
  end.

(** An optional sign: [true] when negative. *)
Definition sign_of (s : text) : bool * text :=
  match s with
  | c :: r =>
      if N.eqb c (code "-") then (true, r)
      else if N.eqb c (code "+") then (false, r)
      else (false, s)
  | [] => (false, s)
  end.

(** ExponentPart, when present and well formed. *)
Definition exponent_part (s : text) : option Z :=
  match s with
  | [] => Some 0%Z
  | c :: r =>
      if N.eqb c (code "e") || N.eqb c (code "E") then
        let '(sg, r1) := sign_of r in
        match digits 10 0 0 r1 with
        | (_, O, _) => None
        | (e, _, []) => Some (if sg then (- e)%Z else e)
        | _ => None
        end
      else None
  end.

(** [m * 10^e] as an exact rational. *)
Definition scale10 (m e : Z) : Q :=
  match e with
  | Zneg p => Qmake m (10 ^ p)%positive
  | _ => inject_Z (m * 10 ^ e)
  end.

(** StrUnsignedDecimalLiteral other than [Infinity]. *)
Definition unsigned_decimal (s : text) : option Q :=
  let '(ip, ni, r) := digits 10 0 0 s in
  let '(m, nf, r2) :=
    match r with
    | c :: r1 => if N.eqb c (code ".") then digits 10 ip 0 r1 else (ip, O, r)
    | [] => (ip, O, r)
    end in
  if (Nat.eqb ni 0 && Nat.eqb nf 0) then None
  else
    match exponent_part r2 with
    | Some e => Some (scale10 m (e - Z.of_nat nf))
    | None => None
    end.

(** NonDecimalIntegerLiteral: [0x], [0o], [0b] (either case) then digits. *)
Definition non_decimal (s : text) : option Q :=
  match s with
  | z :: c :: r =>
      if N.eqb z (code "0") then
        let base :=
          if N.eqb c (code "x") || N.eqb c (code "X") then 16%Z
          else if N.eqb c (code "o") || N.eqb c (code "O") then 8%Z
          else if N.eqb c (code "b") || N.eqb c (code "B") then 2%Z
          else 0%Z in
        match digits base 0 0 r with
        | (_, O, _) => None
        | (v, _, []) => Some (inject_Z v)
        | _ => None
        end
      else None
  | _ => None
  end.

Definition Infinity_text : text := of_string "Infinity".

Fixpoint text_eqb (s t : text) : bool :=
  match s, t with
  | [], [] => true
  | a :: s', b :: t' => N.eqb a b && text_eqb s' t'
  | _, _ => false
  end.

Definition Number (value : text) : number :=
  let s := trim value in
  match s with
  | [] => Fin 0
  | _ =>
      match non_decimal s with
      | Some v => round64 v
      | None =>
          let '(sg, r) := sign_of s in
          if text_eqb r Infinity_text then (if sg then NInf else PInf)
          else match unsigned_decimal r with
               | Some v => round64 (if sg then - v else v)
               | None => NaN
               end
      end
  end.

(** A numeric literal of the source denotes the nearest Number. *)
Definition literal (q : Q) : number := round64 q.

(** ** Parsing helpers ([app.js], lines 50-108) *)

Definition parseProbability (value : text) (format : string) : option number :=
  let x := Number value in
  if negb (isFinite x) then None
  else if String.eqb format "percent" then Some (div x (literal 100))
  else Some x.

Definition parseNetOdds (oddsStr : text) (format : string) : option number :=
  let s := trim oddsStr in
  match s with
  | [] => None
  | _ =>
      if String.eqb format "decimal" then
        let D := Number s in
        if negb (isFinite D) || le D (literal 1) then None
        else Some (sub D (literal 1))
      else
        match split (code "/") s with
        | [part0; part1] =>
            let A := Number (trim part0) in
            let B := Number (trim part1) in
            if negb (isFinite A) || negb (isFinite B)
               || le B (literal 0) || le A (literal 0)
            then None
            else Some (div A B)
        | _ => None
        end
  end.

Definition clamp (x min max : number) : number :=
  Math_min max (Math_max min x).

(** ** Core Kelly math (lines 110-143) *)

Definition kellyFraction (p b : number) : number :=
  let q := sub (literal 1) p in
  div (sub (mul b p) q) b.

Section Calculator.

(** [Math.log] is implementation-approximated in ECMAScript: the model is
    parametric in it. *)
Variable Math_log : number -> number.

Definition expectedLogGrowth (p b f : number) : option number :=
  let q := sub (literal 1) p in
  let winFactor := add (literal 1) (mul f b) in
  let loseFactor := sub (literal 1) f in
  if le winFactor (literal 0) || le loseFactor (literal 0) then None
  else Some (add (mul p (Math_log winFactor)) (mul q (Math_log loseFactor))).

(** ** UI update (lines 149-270) *)

(** The [value] of each input element. *)
Record inputs : Type := {
  bankrollEl : text;
  pEl : text;
  pFormatEl : string;
  oddsEl : text;
  oddsFormatEl : string;
  fractionalEl : text
}.

(** The numbers computed on the success path; [stake] and [g] are [None]
    where the source has [null]; [note] tells whether the advisory note
    about a non-positive edge is appended to the breakdown. *)
Record KellyResult : Type := {
  b : number;
  q : number;
  fStar : number;
  fStarClamped : number;
  fAppliedRaw : number;
  fApplied : number;
  stake : option number;
  g : option number;
  note : bool
}.

(** What [update] shows: on invalid input the six output fields are set to
    a dash and the breakdown lists the problems; otherwise the outputs are
    the formatted fields of a [KellyResult]. *)
Inductive outcome : Type :=
| Invalid (problems : list string)
| Valid (r : KellyResult).

Definition problem_p_missing : string :=
  "Probability (p) is missing or not a number.".
Definition problem_p_range : string :=
  "Probability (p) must be between 0 and 1 (exclusive).".
Definition problem_odds_invalid : string :=
  "Odds are missing/invalid (check format).".
Definition problem_b_positive : string :=
  "Net odds (b) must be > 0.".

(** [if (c) problems.push(msg)] *)
Definition push_if (c : bool) (msg : string) (problems : list string)
  : list string :=
  if c then problems ++ [msg] else problems.

(** The four conditions tested at lines 159-163, on the parsed [p] and
    [b] ([None] is [null]). *)
Definition p_missing (p : option number) : bool :=
  match p with
  | None => true
  | Some x => negb (isFinite x)
  end.

Definition p_out_of_range (p : option number) : bool :=
  match p with
  | None => false
  | Some x => le x (literal 0) || ge x (literal 1)
  end.

Definition odds_invalid (b : option number) : bool :=
  match b with
  | None => true
  | Some x => negb (isFinite x)
  end.

Definition b_not_positive (b : option number) : bool :=
  match b with
  | None => false
  | Some x => le x (literal 0)
  end.

(** Lines 157-163. *)
Definition validate (p b : option number) : list string :=
  let problems := [] in
  let problems := push_if (p_missing p) problem_p_missing problems in
  let problems := push_if (p_out_of_range p) problem_p_range problems in
  let problems := push_if (odds_invalid b) problem_odds_invalid problems in
  let problems := push_if (b_not_positive b) problem_b_positive problems in
  problems.

Definition update (i : inputs) : outcome :=
  let p := parseProbability (pEl i) (pFormatEl i) in
  let b := parseNetOdds (oddsEl i) (oddsFormatEl i) in
  let k := Number (fractionalEl i) in
  let problems := validate p b in
  match problems, p, b with
  | [], Some p, Some b =>
      let q := sub (literal 1) p in
      let fStar := kellyFraction p b in
      let fStarClamped := Math_max (literal 0) fStar in
      let fAppliedRaw := mul k fStarClamped in
      let fApplied := clamp fAppliedRaw (literal 0) (literal (9999 # 10000)) in
      let bankroll :=
        match bankrollEl i with
        | [] => None
        | v => Some (Number v)
        end in
      let stake :=
        match bankroll with
        | Some bk =>
            if isFinite bk && gt bk (literal 0) then Some (mul bk fApplied)
            else None
        | None => None
        end in
      let g := expectedLogGrowth p b fApplied in
      Valid {| b := b; q := q; fStar := fStar;
               fStarClamped := fStarClamped; fAppliedRaw := fAppliedRaw;
               fApplied := fApplied; stake := stake; g := g;
               note := le fStar (literal 0) |}
  | _, _, _ => Invalid problems
  end.

(** The numbers shown, if any. *)
Definition numeric_outputs (o : outcome) : option KellyResult :=
  match o with
  | Invalid _ => None
  | Valid r => Some r
  end.

End Calculator.

(** The rational value of the literal [0.9999]. *)
Definition cap : Q := Eval vm_compute in Qred (sround (9999 # 10000)).

(** ** A reference [Math.log]

    [ln x = k ln 2 + 2 atanh ((t - 1) / (t + 1))] for [x = 2^k t] with
    [1 <= t < 2].  The inverse hyperbolic tangent is summed to 40 terms in
    fixed point, with 128 binary places, and the result is rounded to a
    Number. *)

Definition fx_one : Z := (2 ^ 128)%Z.

(** [ln 2] in fixed point. *)
Definition fx_ln2 : Z := 235865763225513294137944142764154484399%Z.

(** [atanh_sum n pw zz i acc] adds [n] terms [pw / i], [pw zz / (i + 2)], ... *)
Fixpoint atanh_sum (n : nat) (pw zz i acc : Z) : Z :=
  match n with
  | O => acc
  | S m => atanh_sum m (pw * zz / fx_one) zz (i + 2) (acc + pw / i)
  end.

Definition ln_fixed (x : Q) : Z :=
  let k := ilog2 x in
  let t := x / pow2 k in
  let z := Qfloor ((t - 1) / (t + 1) * inject_Z fx_one) in
  (k * fx_ln2 + 2 * atanh_sum 40 z (z * z / fx_one) 1 0)%Z.

Definition ln_approx (x : Q) : Q :=
  inject_Z (ln_fixed x) / inject_Z fx_one.

Definition log_approx (a : number) : number :=
  match a with
  | NaN | NInf => NaN
  | PInf => PInf
  | Fin x =>
      match sgn x with
      | Lt => NaN
      | Eq => NInf
      | Gt => round64 (ln_approx x)
      end
  end.

(** ** The library's binary64

    [SpecFloat] is the Standard Library's specification of IEEE 754
    arithmetic on significand and exponent pairs.  [to_SF] maps a Number to
    it, so that the arithmetic above can be compared with the library's on
    sample values; the sign of a zero is left out of the comparison. *)

Definition to_SF (n : number) : SpecFloat.spec_float :=
  match n with
  | NaN => SpecFloat.S754_nan
  | PInf => SpecFloat.S754_infinity false
  | NInf => SpecFloat.S754_infinity true
  | Fin x =>
      let a := Qabs x in
      let e := ulp_exp a in
      match Qfloor (a / pow2 e) with
      | Zpos m =>
          SpecFloat.S754_finite (if Qlt_le_dec x 0 then true else false) m e
      | _ => SpecFloat.S754_zero false
      end
  end.

Definition same_SF (x y : SpecFloat.spec_float) : bool :=
  match x, y with
  | SpecFloat.S754_nan, SpecFloat.S754_nan => true
  | SpecFloat.S754_zero _, SpecFloat.S754_zero _ => true
  | SpecFloat.S754_infinity s, SpecFloat.S754_infinity t => Bool.eqb s t
  | SpecFloat.S754_finite s m e, SpecFloat.S754_finite t n f =>
      Bool.eqb s t && Pos.eqb m n && Z.eqb e f
  | _, _ => false
  end.

(** The four operations give what the library's give on [x] and [y]. *)
Definition agree (x y : number) : bool :=
  same_SF (to_SF (add x y)) (SpecFloat.SFadd 53 1024 (to_SF x) (to_SF y))
  && same_SF (to_SF (sub x y)) (SpecFloat.SFsub 53 1024 (to_SF x) (to_SF y))
  && same_SF (to_SF (mul x y)) (SpecFloat.SFmul 53 1024 (to_SF x) (to_SF y))
  && same_SF (to_SF (div x y)) (SpecFloat.SFdiv 53 1024 (to_SF x) (to_SF y)).

Definition samples : list number :=
  NaN :: PInf :: NInf
  :: map literal
       [0; 1; -(1); 100; 1 # 3; 1 # 10; 55 # 100; 45 # 100; 11 # 10;
        21 # 10; 9999 # 10000; -(4 # 5); 3; 1000;
        scale10 1 (-200); scale10 1 200; scale10 17 307; scale10 5 (-324);
        scale10 (-3) (-310); scale10 22250738585072014 (-324)].

(** ** Scenarios *)

(** The input elements holding the given texts. *)
Definition mk (bk p pf o ofm k : string) : inputs :=
  {| bankrollEl := of_string bk; pEl := of_string p; pFormatEl := pf;
     oddsEl := of_string o; oddsFormatEl := ofm; fractionalEl := of_string k |}.

(** [x] agrees with the decimal [v] to [digits] places after the point. *)
Definition shown (digits : nat) (x : number) (v : Q) : Prop :=
  match x with
  | Fin y => Qabs (y - v) <= 1 # (2 * 10 ^ Pos.of_nat digits)
  | _ => False
  end.

(** Scenario 1 of the specification, and its outcome as the specification
    states it. *)
Definition scenario1 : inputs :=
  mk "1000" "0.55" "decimal" "2.10" "decimal" "1".

Definition scenario1_as_stated (o : outcome) : Prop :=
  exists r, o = Valid r
    /\ shown 4 (b r) (110 # 100) /\ shown 4 (q r) (45 # 100)
    /\ shown 4 (fStar r) (909 # 10000)
    /\ shown 4 (fStarClamped r) (909 # 10000)
    /\ shown 4 (fApplied r) (909 # 10000)
    /\ exists s, stake r = Some s /\ shown 2 s (9091 # 100).

(** Fractional odds whose quotient is below the least positive Number. *)
Definition underflow_odds : inputs :=
  mk "" "0.5" "decimal" "1e-200/1e200" "fractional" "1".


(** ** Further inputs *)

Definition scenario2 : inputs :=
  mk "10" "0.4" "decimal" "1.50" "decimal" "1".

Definition half_kelly : inputs :=
  mk "1000" "0.55" "decimal" "2.10" "decimal" "0.50".

Definition negative_multiplier : inputs :=
  mk "1000" "0.55" "decimal" "2.10" "decimal" "-1".

(** ** Formatting ([app.js], lines 95-101) *)

(** The character of the decimal digit [d]. *)
Definition digit_char (d : Z) : code_unit := Z.to_N (48 + d).

(** The decimal digits of [n >= 0] put before [acc], most significant first;
    the fuel bounds the number of digits. *)
Fixpoint decimal_digits (fuel : nat) (n : Z) (acc : text) : text :=
  match fuel with
  | O => acc
  | S f =>
      let acc' := digit_char (n mod 10) :: acc in
      if (n <? 10)%Z then acc' else decimal_digits f (n / 10) acc'
  end.

(** The decimal representation of [n >= 0], without leading zeros. *)
Definition decimal (n : Z) : text :=
  decimal_digits (S (Z.to_nat (Z.log2 n))) n [].

(** Steps 11.b and 11.c of [toFixed]: the digits of [n] with a point before
    the last [f] of them, after padding with zeros to [f + 1] digits. *)
Definition fixed_point (n : Z) (f : nat) : text :=
  let m := decimal n in
  if (f =? 0)%nat then m
  else
    let k := length m in
    let m := if (k <=? f)%nat then repeat (code "0") (f + 1 - k) ++ m else m in
    let k := length m in
    firstn (k - f) m ++ code "." :: skipn (k - f) m.

Section Formatting.

(** [Number::toString] of a finite Number of at least [10^21], which is in
    exponent notation, is a parameter. *)
Variable toString_large : Q -> text.

(** [Number.prototype.toFixed]; [None] is the [RangeError] for more than
    100 digits.  The integer [n] for which [n / 10^f - x] is nearest to
    zero, the larger one of two, is the floor of [x * 10^f + 1/2]. *)
Definition toFixed (x : number) (fractionDigits : nat) : option text :=
  if (100 <? fractionDigits)%nat then None
  else
    Some
      match x with
      | NaN => of_string "NaN"
      | PInf => of_string "Infinity"
      | NInf => of_string "-Infinity"
      | Fin v =>
          let s := if Qlt_le_dec v 0 then of_string "-" else [] in
          let x := Qabs v in
          let m :=
            if Qle_bool (inject_Z (10 ^ 21)) x then toString_large x
            else
              let n := Qfloor (x * inject_Z (10 ^ Z.of_nat fractionDigits)
                               + (1 # 2)) in
              fixed_point n fractionDigits
          in
          s ++ m
      end.

(** The dash shown for a missing value (U+2014). *)
Definition dash : text := of_string "—".

Definition fmt (x : option number) (digits : nat) : option text :=
  match x with
  | None => Some dash
  | Some v => if negb (isFinite v) then Some dash else toFixed v digits
  end.

End Formatting.

(** *** A reference [Number::toString] for large values

    The shortest decimal [s * 10^e] that rounds to [x], the nearest to [x]
    if there are two of that length, written in exponent notation. *)

Definition same_number (a b : number) : bool :=
  match a, b with
  | Fin x, Fin y => Qeq_bool x y
  | PInf, PInf | NInf, NInf => true
  | _, _ => false
  end.

Fixpoint strip_zeros (rev_digits : text) : text :=
  match rev_digits with
  | c :: r => if N.eqb c (code "0") then strip_zeros r else rev_digits
  | [] => []
  end.

(** [s * 10^e] in exponent notation. *)
Definition exponent_notation (s e : Z) : text :=
  let d := decimal s in
  let n := (Z.of_nat (length d) + e)%Z in
  match rev (strip_zeros (rev d)) with
  | [] => d
  | c :: r =>
      (c :: match r with [] => [] | _ => code "." :: r end)
      ++ of_string "e+" ++ decimal (n - 1)
  end.

(** Search for the least number of digits, from [k] on. *)
Fixpoint shortest (fuel : nat) (k : Z) (x n : Z) : Z * Z :=
  match fuel with
  | O => (x, 0%Z)
  | S f =>
      let e := (n - k)%Z in
      let p := (10 ^ e)%Z in
      let lo := (x / p)%Z in
      let hi := (lo + 1)%Z in
      let ok s := same_number (round64 (inject_Z (s * p))) (round64 (inject_Z x)) in
      match ok lo, ok hi with
      | true, true =>
          let dl := (x - lo * p)%Z in
          let dh := (hi * p - x)%Z in
          if (dl <? dh)%Z then (lo, e)
          else if (dh <? dl)%Z then (hi, e)
          else if Z.even lo then (lo, e) else (hi, e)
      | true, false => (lo, e)
      | false, true => (hi, e)
      | false, false => shortest f (k + 1) x n
      end
  end.

Definition toString_large_ref (x : Q) : text :=
  let X := Qfloor x in
  let n := Z.of_nat (length (decimal X)) in
  let '(s, e) := shortest 17 1 X n in
  exponent_notation s e.

(** The value of a text of decimal digits read after [acc]. *)
Definition dec_value (acc : Z) (t : text) : Z :=
  fold_left (fun a c => (a * 10 + (Z.of_N c - 48))%Z) t acc.

Definition is_digit (c : code_unit) : Prop :=
  exists d, (0 <= d < 10)%Z /\ c = digit_char d.

(** ** What [update] writes (lines 154, 166-176, 205-215) *)

(** [Array.prototype.join] *)
Fixpoint join (sep : text) (l : list text) : text :=
  match l with
  | [] => []
  | [x] => x
  | x :: r => x ++ sep ++ join sep r
  end.

Definition newline : code_unit := 10%N.

(** The breakdown shown for invalid input (lines 174-175). *)
Definition invalid_breakdown (problems : list string) : text :=
  of_string "Fix these input issues:" ++ newline :: of_string "- "
  ++ join (newline :: of_string "- ") (map of_string problems).

(** The label of the multiplier and the six output fields. *)
Record outputs : Type := {
  fractionalLabel : text;
  bOut : text;
  qOut : text;
  kellyOut : text;
  appliedOut : text;
  stakeOut : text;
  growthOut : text
}.

Section Display.

Variable toString_large : Q -> text.

(** [None] stands for a [RangeError] of [toFixed]. *)
Definition show_outputs (k : number) (o : outcome) : option outputs :=
  match toFixed toString_large k 2 with
  | None => None
  | Some label =>
      match o with
      | Invalid _ =>
          Some {| fractionalLabel := label ++ of_string "×";
                  bOut := dash; qOut := dash; kellyOut := dash;
                  appliedOut := dash; stakeOut := dash; growthOut := dash |}
      | Valid r =>
          match fmt toString_large (Some (b r)) 4, fmt toString_large (Some (q r)) 4,
                fmt toString_large (Some (fStar r)) 4, fmt toString_large (Some (fStarClamped r)) 4,
                fmt toString_large (Some (fApplied r)) 4,
                match stake r with
                | None => Some (of_string "Enter bankroll to compute")
                | Some s =>
                    match fmt toString_large (Some s) 2 with
                    | Some t => Some (t ++ of_string " (units)")
                    | None => None
                    end
                end,
                match g r with
                | None => Some dash
                | Some v => fmt toString_large (Some v) 6
                end
          with
          | Some tb, Some tq, Some tf, Some tc, Some ta, Some ts, Some tg =>
              Some {| fractionalLabel := label ++ of_string "×";
                      bOut := tb; qOut := tq;
                      kellyOut := tf ++ of_string " (raw), " ++ tc
                                  ++ of_string " (clamped ≥ 0)";
                      appliedOut := ta; stakeOut := ts; growthOut := tg |}
          | _, _, _, _, _, _, _ => None
          end
      end
  end.

(** What one run of [update] leaves in the output fields. *)
Definition display (Math_log : number -> number) (i : inputs)
  : option outputs :=
  show_outputs (Number (fractionalEl i)) (update Math_log i).

End Display.

(** A text of digits with exactly four after the point. *)
Definition four_decimals (t : text) : Prop :=
  exists a b', t = a ++ code "." :: b'
               /\ Forall is_digit a /\ a <> []
               /\ Forall is_digit b' /\ length b' = 4%nat.

(** * Properties *)

(** ** Rounding to binary64 *)

Module DoubleFacts.

Lemma pow2_pos e : 0 < pow2 e.
Proof. apply Qpower_0_lt. reflexivity. Qed.

Lemma pow2_add a b : pow2 (a + b) == pow2 a * pow2 b.
Proof. apply Qpower_plus. discriminate. Qed.

Lemma pow2_le a b : (a <= b)%Z -> pow2 a <= pow2 b.
Proof. intros H. apply Qpower_le_compat_l; [exact H | discriminate]. Qed.

Lemma pow2_lt_inv a b : pow2 a < pow2 b -> (a < b)%Z.
Proof. intros H. apply (Qpower_lt_compat_l_inv 2); [exact H | reflexivity]. Qed.

Lemma pow2_Z e : (0 <= e)%Z -> pow2 e == inject_Z (2 ^ e).
Proof. intros H. symmetry. apply (Zpower_Qpower 2 e H). Qed.

Lemma pow2_succ e : pow2 (e + 1) == 2 * pow2 e.
Proof. rewrite pow2_add. unfold pow2 at 2. simpl. ring. Qed.

Lemma Qmult_lt_cancel_r x y z : 0 < z -> x * z < y * z -> x < y.
Proof. intros Hz H. apply (Qmult_lt_r x y z Hz). exact H. Qed.

Lemma Qmult_le_cancel_r x y z : 0 < z -> x * z <= y * z -> x <= y.
Proof. intros Hz H. apply (Qmult_le_r x y z Hz). exact H. Qed.

Lemma ilog2_spec a : 0 < a -> pow2 (ilog2 a) <= a /\ a < pow2 (ilog2 a + 1).
Proof.
intros Ha. unfold ilog2.
destruct a as [n d]. cbn [Qnum Qden].
assert (Hn : (0 < n)%Z).
{ unfold Qlt in Ha. cbn in Ha. lia. }
set (ln := Z.log2 n). set (ld := Z.log2 (Z.pos d)).
assert (Hln : (0 <= ln)%Z) by apply Z.log2_nonneg.
assert (Hld : (0 <= ld)%Z) by apply Z.log2_nonneg.
destruct (Z.log2_spec n Hn) as [Hn1 Hn2]. fold ln in Hn1, Hn2.
destruct (Z.log2_spec (Z.pos d) (Pos2Z.is_pos d)) as [Hd1 Hd2].
fold ld in Hd1, Hd2.
assert (HN : (n # d) * inject_Z (Z.pos d) == inject_Z n).
{ unfold Qeq, inject_Z. cbn. lia. }
assert (HD : 0 < inject_Z (Z.pos d)) by (unfold Qlt; cbn; lia).
assert (Q1 : pow2 ln <= inject_Z n) by (rewrite pow2_Z by lia; rewrite <- Zle_Qle; exact Hn1).
assert (Q2 : inject_Z n < pow2 (ln + 1)) by (rewrite pow2_Z by lia; rewrite <- Zlt_Qlt; exact Hn2).
assert (Q3 : pow2 ld <= inject_Z (Z.pos d)) by (rewrite pow2_Z by lia; rewrite <- Zle_Qle; exact Hd1).
assert (Q4 : inject_Z (Z.pos d) < pow2 (ld + 1)) by (rewrite pow2_Z by lia; rewrite <- Zlt_Qlt; exact Hd2).
destruct (Qle_bool (pow2 (ln - ld)) (n # d)) eqn:E.
- split. { apply Qle_bool_iff. exact E. }
  apply (Qmult_lt_cancel_r _ _ (inject_Z (Z.pos d)) HD).
  rewrite HN.
  apply Qlt_le_trans with (1 := Q2).
  replace (ln + 1)%Z with ((ln - ld + 1) + ld)%Z by ring.
  rewrite pow2_add.
  apply Qmult_le_l; [apply pow2_pos | exact Q3].
- assert (E' : (n # d) < pow2 (ln - ld)).
  { apply Qnot_le_lt. intro H. apply Qle_bool_iff in H. congruence. }
  split.
  + apply (Qmult_le_cancel_r _ _ (inject_Z (Z.pos d)) HD).
    rewrite HN.
    apply Qle_trans with (2 := Q1).
    apply Qle_trans with (pow2 (ln - ld - 1) * pow2 (ld + 1)).
    * apply Qmult_le_l; [apply pow2_pos | apply Qlt_le_weak; exact Q4].
    * rewrite <- pow2_add. apply pow2_le. lia.
  + replace (ln - ld - 1 + 1)%Z with (ln - ld)%Z by ring. exact E'.
Qed.

Lemma ilog2_unique a k : pow2 k <= a -> a < pow2 (k + 1) -> ilog2 a = k.
Proof.
intros H1 H2.
assert (Ha : 0 < a) by (apply Qlt_le_trans with (2 := H1); apply pow2_pos).
destruct (ilog2_spec a Ha) as [S1 S2].
assert (ilog2 a < k + 1)%Z.
{ apply pow2_lt_inv. apply Qle_lt_trans with (1 := S1). exact H2. }
assert (k < ilog2 a + 1)%Z.
{ apply pow2_lt_inv. apply Qle_lt_trans with (1 := H1). exact S2. }
lia.
Qed.

Lemma ilog2_mono a b : 0 < a -> a <= b -> (ilog2 a <= ilog2 b)%Z.
Proof.
intros Ha Hab.
assert (Hb : 0 < b) by (apply Qlt_le_trans with (1 := Ha); exact Hab).
destruct (ilog2_spec a Ha) as [A1 A2].
destruct (ilog2_spec b Hb) as [B1 B2].
assert (ilog2 a < ilog2 b + 1)%Z; [|lia].
apply pow2_lt_inv. apply Qle_lt_trans with (1 := A1).
apply Qle_lt_trans with (1 := Hab). exact B2.
Qed.

Lemma ilog2_comp a b : 0 < a -> a == b -> ilog2 a = ilog2 b.
Proof.
intros Ha E. symmetry.
destruct (ilog2_spec a Ha) as [A1 A2].
apply ilog2_unique; rewrite <- E; assumption.
Qed.

Lemma rne_comp s t : s == t -> rne s = rne t.
Proof.
intros E. unfold rne. rewrite (Qfloor_comp _ _ E).
assert (E2 : s - inject_Z (Qfloor t) == t - inject_Z (Qfloor t)) by (rewrite E; reflexivity).
rewrite (Qcompare_comp _ _ E2 _ _ (Qeq_refl (1 # 2))). reflexivity.
Qed.

Lemma rne_floor s : (Qfloor s <= rne s <= Qfloor s + 1)%Z.
Proof.
unfold rne. destruct (Qcompare _ _); [destruct (Z.even _)| |]; lia.
Qed.

Lemma rne_Z z : rne (inject_Z z) = z.
Proof.
unfold rne. rewrite Qfloor_Z.
destruct (Qcompare_spec (inject_Z z - inject_Z z) (1 # 2)) as [H|H|H]; try lra.
reflexivity.
Qed.

Lemma rne_mono s t : s <= t -> (rne s <= rne t)%Z.
Proof.
intros Hst.
pose proof (Qfloor_resp_le _ _ Hst) as Hf.
destruct (Z.eq_dec (Qfloor s) (Qfloor t)) as [E|N].
- unfold rne. rewrite E.
  destruct (Qcompare_spec (s - inject_Z (Qfloor t)) (1 # 2)) as [H|H|H];
    destruct (Qcompare_spec (t - inject_Z (Qfloor t)) (1 # 2)) as [H'|H'|H'];
    try lia; try lra; destruct (Z.even (Qfloor t)); lia.
- pose proof (rne_floor s). pose proof (rne_floor t). lia.
Qed.

Lemma rne_near s : - (1 # 2) <= inject_Z (rne s) - s <= 1 # 2.
Proof.
pose proof (Qfloor_le s) as H1. pose proof (Qlt_floor s) as H2.
rewrite inject_Z_plus in H2.
unfold rne.
destruct (Qcompare_spec (s - inject_Z (Qfloor s)) (1 # 2)) as [H|H|H].
- destruct (Z.even (Qfloor s)); [|rewrite inject_Z_plus]; change (inject_Z 1) with 1 in *; lra.
- change (inject_Z 1) with 1 in *; lra.
- rewrite inject_Z_plus. change (inject_Z 1) with 1 in *; lra.
Qed.

Lemma ulp_exp_ge a : (emin <= ulp_exp a)%Z.
Proof. unfold ulp_exp. lia. Qed.

Lemma ulp_exp_mono a b : 0 < a -> a <= b -> (ulp_exp a <= ulp_exp b)%Z.
Proof.
intros Ha Hab. unfold ulp_exp.
pose proof (ilog2_mono a b Ha Hab). lia.
Qed.

Lemma ulp_exp_comp a b : 0 < a -> a == b -> ulp_exp a = ulp_exp b.
Proof. intros Ha E. unfold ulp_exp. rewrite (ilog2_comp a b Ha E). reflexivity. Qed.

Lemma div_pow2_le a c e : a <= c * pow2 e -> a / pow2 e <= c.
Proof. intros H. apply Qle_shift_div_r; [apply pow2_pos | exact H]. Qed.

Lemma le_div_pow2 a c e : c * pow2 e <= a -> c <= a / pow2 e.
Proof. intros H. apply Qle_shift_div_l; [apply pow2_pos | exact H]. Qed.

Lemma div_pow2_mul a e : a / pow2 e * pow2 e == a.
Proof. field. pose proof (pow2_pos e). lra. Qed.

Lemma scaled_lt a : 0 < a -> a / pow2 (ulp_exp a) <= pow2 53.
Proof.
intros Ha. apply div_pow2_le. rewrite <- pow2_add.
destruct (ilog2_spec a Ha) as [_ H].
apply Qlt_le_weak. apply Qlt_le_trans with (1 := H).
apply pow2_le. unfold ulp_exp, prec. lia.
Qed.

Lemma rne_scaled_le a : 0 < a -> (rne (a / pow2 (ulp_exp a)) <= 2 ^ 53)%Z.
Proof.
intros Ha. rewrite <- (rne_Z (2 ^ 53)). apply rne_mono.
rewrite <- pow2_Z by lia. apply scaled_lt. exact Ha.
Qed.

Lemma rne_nonneg s : 0 <= s -> (0 <= rne s)%Z.
Proof. intros H. rewrite <- (rne_Z 0). apply rne_mono. exact H. Qed.

Lemma scaled_nonneg a e : 0 <= a -> 0 <= a / pow2 e.
Proof.
intros H. apply le_div_pow2. lra.
Qed.

Lemma round_abs_zero a : a == 0 -> round_abs a == 0.
Proof.
intros E. unfold round_abs.
assert (H : a / pow2 (ulp_exp a) == inject_Z 0).
{ generalize (pow2 (ulp_exp a)). intros c. rewrite E.
  unfold Qdiv. change (inject_Z 0) with 0. ring. }
rewrite (rne_comp _ _ H), rne_Z. change (inject_Z 0) with 0. ring.
Qed.

Lemma round_abs_nonneg a : 0 <= a -> 0 <= round_abs a.
Proof.
intros H. unfold round_abs.
apply Qmult_le_0_compat; [|apply Qlt_le_weak, pow2_pos].
change 0 with (inject_Z 0). rewrite <- Zle_Qle.
apply rne_nonneg, scaled_nonneg, H.
Qed.

Lemma round_abs_comp a b : 0 <= a -> a == b -> round_abs a == round_abs b.
Proof.
intros Ha E.
destruct (Qeq_dec a 0) as [Z|NZ].
- rewrite (round_abs_zero a Z), (round_abs_zero b); [reflexivity|].
  rewrite <- E. exact Z.
- assert (Hp : 0 < a) by (destruct (Qlt_le_dec 0 a); [assumption | exfalso; apply NZ; lra]).
  unfold round_abs. rewrite <- (ulp_exp_comp a b Hp E).
  assert (H : a / pow2 (ulp_exp a) == b / pow2 (ulp_exp a)).
  { generalize (pow2 (ulp_exp a)). intros c. rewrite E. reflexivity. }
  rewrite (rne_comp _ _ H). reflexivity.
Qed.

Lemma round_abs_representable a : 0 <= a -> representable (round_abs a).
Proof.
intros Ha.
destruct (Qeq_dec a 0) as [Z|NZ].
- exists 0%Z, emin. rewrite (round_abs_zero a Z).
  split; [change (inject_Z 0) with 0; ring | split; [lia | lia]].
- assert (Hp : 0 < a) by (destruct (Qlt_le_dec 0 a); [assumption | exfalso; apply NZ; lra]).
  pose proof (rne_scaled_le a Hp) as Hm.
  pose proof (rne_nonneg _ (scaled_nonneg a (ulp_exp a) Ha)) as Hm0.
  destruct (Z.eq_dec (rne (a / pow2 (ulp_exp a))) (2 ^ 53)) as [E|N].
  + exists (2 ^ 52)%Z, (ulp_exp a + 1)%Z.
    unfold round_abs. rewrite E. split.
    * rewrite pow2_succ. rewrite <- !pow2_Z by lia.
      replace 53%Z with (52 + 1)%Z by reflexivity. rewrite pow2_succ. ring.
    * pose proof (ulp_exp_ge a). split; [lia | lia].
  + exists (rne (a / pow2 (ulp_exp a))), (ulp_exp a).
    split; [reflexivity|]. pose proof (ulp_exp_ge a). split; lia.
Qed.

Lemma round_abs_fix a : representable a -> round_abs a == a.
Proof.
intros (m & e & E & Hm & He).
destruct (Z.eq_dec m 0) as [Z|NZ].
- assert (a == 0) by (rewrite E, Z; change (inject_Z 0) with 0; ring).
  rewrite (round_abs_zero a H). symmetry. exact H.
- assert (H1 : 1 <= inject_Z m) by (change 1 with (inject_Z 1); rewrite <- Zle_Qle; lia).
  assert (H53 : inject_Z m + 1 <= pow2 53).
  { rewrite pow2_Z by lia. change 1 with (inject_Z 1).
    rewrite <- inject_Z_plus, <- Zle_Qle. lia. }
  pose proof (pow2_pos e) as Pe.
  assert (Hp : 0 < a) by (rewrite E; apply Qmult_lt_0_compat; lra).
  destruct (ilog2_spec a Hp) as [S1 _].
  assert (Hi : (ilog2 a < e + 53)%Z).
  { apply pow2_lt_inv. apply Qle_lt_trans with (1 := S1).
    rewrite E. rewrite Z.add_comm, pow2_add.
    apply Qmult_lt_compat_r; [exact Pe | lra]. }
  assert (Hu : (ulp_exp a <= e)%Z) by (unfold ulp_exp, prec; lia).
  set (u := ulp_exp a) in *.
  assert (Hs : a / pow2 u == inject_Z (m * 2 ^ (e - u))).
  { rewrite inject_Z_mult, <- pow2_Z by lia.
    rewrite E. replace e with ((e - u) + u)%Z at 1 by ring.
    rewrite pow2_add. field. pose proof (pow2_pos u). lra. }
  unfold round_abs. fold u. rewrite (rne_comp _ _ Hs), rne_Z, <- Hs.
  apply div_pow2_mul.
Qed.

Lemma round_abs_idem a : 0 <= a -> round_abs (round_abs a) == round_abs a.
Proof. intros H. apply round_abs_fix, round_abs_representable, H. Qed.

Lemma round_abs_mono a b : 0 <= a -> a <= b -> round_abs a <= round_abs b.
Proof.
intros Ha Hab.
destruct (Qeq_dec a 0) as [Z|NZ].
{ rewrite (round_abs_zero a Z). apply round_abs_nonneg. lra. }
assert (Hp : 0 < a) by (destruct (Qlt_le_dec 0 a); [assumption | exfalso; apply NZ; lra]).
assert (Hb : 0 < b) by lra.
pose proof (ulp_exp_mono a b Hp Hab) as He.
destruct (Z.eq_dec (ulp_exp a) (ulp_exp b)) as [E|N].
- unfold round_abs. rewrite E.
  apply Qmult_le_compat_r; [|apply Qlt_le_weak, pow2_pos].
  rewrite <- Zle_Qle. apply rne_mono.
  apply le_div_pow2. rewrite div_pow2_mul. exact Hab.
- apply Qle_trans with (pow2 (ulp_exp a + 53)).
  + unfold round_abs. rewrite Z.add_comm, pow2_add.
    apply Qmult_le_compat_r; [|apply Qlt_le_weak, pow2_pos].
    rewrite (pow2_Z 53) by lia. rewrite <- Zle_Qle. apply rne_scaled_le, Hp.
  + apply Qle_trans with (pow2 (ulp_exp b + 52)).
    * apply pow2_le. lia.
    * unfold round_abs. rewrite Z.add_comm, pow2_add.
      apply Qmult_le_compat_r; [|apply Qlt_le_weak, pow2_pos].
      rewrite (pow2_Z 52) by lia. rewrite <- Zle_Qle.
      rewrite <- (rne_Z (2 ^ 52)) at 1. apply rne_mono.
      rewrite <- (pow2_Z 52) by lia. apply le_div_pow2. rewrite <- pow2_add.
      destruct (ilog2_spec b Hb) as [S1 _].
      apply Qle_trans with (2 := S1). apply pow2_le.
      pose proof (ulp_exp_ge a). unfold ulp_exp, prec in *. lia.
Qed.

Lemma round64_unfold x :
round64 x =
if Qle_bool (pow2 emax) (round_abs (Qabs x))
then (if Qlt_le_dec x 0 then NInf else PInf)
else Fin (Qred (sround x)).
Proof.
unfold round64, sround. destruct (Qle_bool _ _); [reflexivity|].
destruct (Qlt_le_dec x 0); reflexivity.
Qed.

Lemma round_abs_Qabs_nonneg x : 0 <= round_abs (Qabs x).
Proof. apply round_abs_nonneg, Qabs_nonneg. Qed.

Lemma sround_mono x y : x <= y -> sround x <= sround y.
Proof.
intros H. unfold sround.
pose proof (round_abs_Qabs_nonneg x). pose proof (round_abs_Qabs_nonneg y).
destruct (Qlt_le_dec x 0) as [Hx|Hx]; destruct (Qlt_le_dec y 0) as [Hy|Hy]; try lra.
- assert (round_abs (Qabs y) <= round_abs (Qabs x)); [|lra].
  apply round_abs_mono; [apply Qabs_nonneg|].
  rewrite (Qabs_neg x), (Qabs_neg y) by lra. lra.
- apply round_abs_mono; [apply Qabs_nonneg|].
  rewrite (Qabs_pos x), (Qabs_pos y) by lra. lra.
Qed.

Lemma sround_abs x : Qabs (sround x) == round_abs (Qabs x).
Proof.
unfold sround. pose proof (round_abs_Qabs_nonneg x).
destruct (Qlt_le_dec x 0).
- rewrite Qabs_opp. apply Qabs_pos. assumption.
- apply Qabs_pos. assumption.
Qed.

Lemma sround_comp x y : x == y -> sround x == sround y.
Proof.
intros E. unfold sround.
assert (Hr : round_abs (Qabs x) == round_abs (Qabs y)).
{ apply round_abs_comp; [apply Qabs_nonneg | rewrite E; reflexivity]. }
destruct (Qlt_le_dec x 0); destruct (Qlt_le_dec y 0); try lra.
Qed.

Lemma round64_comp x y : x == y -> round64 x = round64 y.
Proof.
intros E. rewrite !round64_unfold.
assert (Hr : round_abs (Qabs x) == round_abs (Qabs y)).
{ apply round_abs_comp; [apply Qabs_nonneg | rewrite E; reflexivity]. }
rewrite (Qleb_comp _ _ (Qeq_refl (pow2 emax)) _ _ Hr).
destruct (Qle_bool _ _).
- destruct (Qlt_le_dec x 0); destruct (Qlt_le_dec y 0); try reflexivity; lra.
- f_equal. apply Qred_complete, sround_comp, E.
Qed.

Lemma sround_idem x : sround (sround x) == sround x.
Proof.
unfold sround at 1.
pose proof (round_abs_Qabs_nonneg x) as Hn.
assert (Hi : round_abs (Qabs (sround x)) == round_abs (Qabs x)).
{ rewrite (round_abs_comp _ _ (Qabs_nonneg _) (sround_abs x)).
  apply round_abs_idem, Qabs_nonneg. }
destruct (Qlt_le_dec (sround x) 0) as [H|H]; rewrite Hi; unfold sround in *;
  destruct (Qlt_le_dec x 0); lra.
Qed.

Lemma round64_Fin x y :
round64 x = Fin y ->
y = Qred (sround x) /\ round_abs (Qabs x) < pow2 emax.
Proof.
rewrite round64_unfold.
destruct (Qle_bool _ _) eqn:E.
- destruct (Qlt_le_dec x 0); discriminate.
- intros H. injection H as <-. split; [reflexivity|].
  apply Qnot_le_lt. intros C. apply Qle_bool_iff in C. congruence.
Qed.

Lemma round64_idem x y : round64 x = Fin y -> round64 y = Fin y.
Proof.
intros H. destruct (round64_Fin x y H) as [-> Hlt].
rewrite (round64_comp (Qred (sround x)) (sround x) (Qred_correct _)).
rewrite round64_unfold.
assert (Hi : round_abs (Qabs (sround x)) == round_abs (Qabs x)).
{ rewrite (round_abs_comp _ _ (Qabs_nonneg _) (sround_abs x)).
  apply round_abs_idem, Qabs_nonneg. }
destruct (Qle_bool _ _) eqn:E.
- apply Qle_bool_iff in E. lra.
- f_equal. apply Qred_complete, sround_idem.
Qed.

Lemma round64_not_NaN x : round64 x <> NaN.
Proof.
rewrite round64_unfold. destruct (Qle_bool _ _); [destruct (Qlt_le_dec x 0)|]; discriminate.
Qed.

Lemma le_Fin x y : le (Fin x) (Fin y) = true <-> x <= y.
Proof. apply Qle_bool_iff. Qed.

Lemma round64_mono x y : x <= y -> le (round64 x) (round64 y) = true.
Proof.
intros H. rewrite !round64_unfold.
pose proof (sround_mono x y H) as Hs.
pose proof (sround_abs x) as Ax. pose proof (sround_abs y) as Ay.
destruct (Qle_bool (pow2 emax) (round_abs (Qabs x))) eqn:Ex;
  destruct (Qle_bool (pow2 emax) (round_abs (Qabs y))) eqn:Ey;
  destruct (Qlt_le_dec x 0) as [Hx|Hx]; destruct (Qlt_le_dec y 0) as [Hy|Hy];
  try reflexivity; try lra; cbn [le];
  try (apply Qle_bool_iff; rewrite !Qred_correct; exact Hs);
  exfalso;
  try apply Qle_bool_iff in Ex; try apply Qle_bool_iff in Ey;
  try (assert (Ex' : ~ pow2 emax <= round_abs (Qabs x)) by (rewrite <- Qle_bool_iff; congruence));
  try (assert (Ey' : ~ pow2 emax <= round_abs (Qabs y)) by (rewrite <- Qle_bool_iff; congruence));
  unfold sround in *;
  destruct (Qlt_le_dec x 0); destruct (Qlt_le_dec y 0); try lra.
Qed.

Lemma js_round64 x : js_number (round64 x).
Proof.
destruct (round64 x) eqn:E; cbn; try exact I.
apply (round64_idem x), E.
Qed.

Lemma round64_lower lo lo' x :
round64 lo = Fin lo' -> lo <= x ->
round64 x = PInf \/ exists y, round64 x = Fin y /\ lo' <= y /\ round64 y = Fin y.
Proof.
intros Hlo H. pose proof (round64_mono lo x H) as M. rewrite Hlo in M.
destruct (round64 x) as [| | |y] eqn:E; try discriminate; [left; reflexivity|].
right. exists y. split; [reflexivity|]. split; [apply le_Fin, M|].
apply (round64_idem x), E.
Qed.

Lemma round64_upper hi hi' x :
round64 hi = Fin hi' -> x <= hi ->
round64 x = NInf \/ exists y, round64 x = Fin y /\ y <= hi' /\ round64 y = Fin y.
Proof.
intros Hhi H. pose proof (round64_mono x hi H) as M. rewrite Hhi in M.
destruct (round64 x) as [| | |y] eqn:E; try discriminate; [left; reflexivity|].
right. exists y. split; [reflexivity|]. split; [apply le_Fin, M|].
apply (round64_idem x), E.
Qed.

Lemma round64_between lo lo' hi hi' x :
round64 lo = Fin lo' -> round64 hi = Fin hi' -> lo <= x -> x <= hi ->
exists y, round64 x = Fin y /\ lo' <= y /\ y <= hi' /\ round64 y = Fin y.
Proof.
intros Hlo Hhi H1 H2.
destruct (round64_lower lo lo' x Hlo H1) as [E|(y & E & B & J)];
  destruct (round64_upper hi hi' x Hhi H2) as [E'|(y' & E' & B' & J')];
  try congruence.
exists y. rewrite E in E'. injection E' as <-. auto.
Qed.

(** every binary64 value is a multiple of the least positive one *)
Lemma representable_grid a : representable a -> exists z : Z, a == inject_Z z * pow2 emin.
Proof.
intros (m & e & E & Hm & He).
exists (m * 2 ^ (e - emin))%Z.
rewrite E, inject_Z_mult, <- pow2_Z by lia.
replace e with ((e - emin) + emin)%Z at 1 by ring.
rewrite pow2_add. ring.
Qed.

Lemma js_grid y : round64 y = Fin y -> exists z : Z, y == inject_Z z * pow2 emin.
Proof.
intros H. destruct (round64_Fin y y H) as [E _].
destruct (representable_grid _ (round_abs_representable (Qabs y) (Qabs_nonneg y))) as [z Hz].
assert (Hy : y == sround y) by (rewrite E at 1; apply Qred_correct).
unfold sround in Hy. destruct (Qlt_le_dec y 0).
- exists (- z)%Z. rewrite inject_Z_opp. rewrite Hy, Hz. ring.
- exists z. rewrite Hy, Hz. reflexivity.
Qed.

Lemma js_gap u v :
round64 u = Fin u -> round64 v = Fin v -> u < v -> pow2 emin <= v - u.
Proof.
intros Hu Hv H.
destruct (js_grid u Hu) as [zu Eu]. destruct (js_grid v Hv) as [zv Ev].
pose proof (pow2_pos emin) as P.
assert (Hz : (zu < zv)%Z).
{ apply Z.nle_gt. intros C. rewrite Zle_Qle in C.
  assert (inject_Z zv * pow2 emin <= inject_Z zu * pow2 emin)
    by (apply Qmult_le_compat_r; lra).
  lra. }
assert (Hz' : inject_Z zu + 1 <= inject_Z zv).
{ change 1 with (inject_Z 1). rewrite <- inject_Z_plus, <- Zle_Qle. lia. }
rewrite Ev, Eu.
assert ((inject_Z zu + 1) * pow2 emin <= inject_Z zv * pow2 emin)
  by (apply Qmult_le_compat_r; lra).
lra.
Qed.

Lemma round64_MIN_VALUE : round64 (pow2 emin) = Fin MIN_VALUE.
Proof. vm_compute. reflexivity. Qed.

Lemma MIN_VALUE_pos : 0 < MIN_VALUE.
Proof. reflexivity. Qed.

(** a result of at least the least positive binary64 value is positive *)
Lemma round64_pos x :
pow2 emin <= x -> le (round64 x) (Fin 0) = false /\ lt (Fin 0) (round64 x) = true.
Proof.
intros H. pose proof MIN_VALUE_pos as T.
destruct (round64_lower _ _ x round64_MIN_VALUE H) as [->|(y & -> & B & _)].
- split; reflexivity.
- cbn. assert (E : Qle_bool y 0 = false).
  { destruct (Qle_bool y 0) eqn:E; [|reflexivity].
    apply Qle_bool_iff in E. lra. }
  rewrite E. split; reflexivity.
Qed.


End DoubleFacts.

Import DoubleFacts.

(** ** Arithmetic on Numbers *)

(** On every pair of the sample values, the sum, difference, product and
    quotient are those of the library's binary64 arithmetic. *)
Example arithmetic_agrees_with_SpecFloat :
  forallb (fun x => forallb (agree x) samples) samples = true.
Proof. vm_compute. reflexivity. Qed.

Opaque round_abs.

Lemma lit_0 : literal 0 = Fin 0.
Proof. vm_compute. reflexivity. Qed.

Lemma lit_1 : literal 1 = Fin 1.
Proof. vm_compute. reflexivity. Qed.

Lemma lit_100 : literal 100 = Fin 100.
Proof. vm_compute. reflexivity. Qed.

Lemma round64_0 : round64 0 = Fin 0.
Proof. vm_compute. reflexivity. Qed.

Lemma round64_1 : round64 1 = Fin 1.
Proof. vm_compute. reflexivity. Qed.

Lemma round64_m1 : round64 (- (1)) = Fin (-1 # 1).
Proof. vm_compute. reflexivity. Qed.

Lemma add_Fin x y : add (Fin x) (Fin y) = round64 (x + y).
Proof. reflexivity. Qed.

Lemma sub_Fin x y : sub (Fin x) (Fin y) = round64 (x - y).
Proof. reflexivity. Qed.

Lemma mul_Fin x y : mul (Fin x) (Fin y) = round64 (x * y).
Proof. reflexivity. Qed.

Lemma div_Fin x y : ~ y == 0 -> div (Fin x) (Fin y) = round64 (x / y).
Proof.
  intros H. cbn. destruct (Qeq_bool y 0) eqn:E; [|reflexivity].
  apply Qeq_bool_iff in E. contradiction.
Qed.

Lemma js_add a b : js_number (add a b).
Proof. destruct a, b; cbn; try exact I; apply js_round64. Qed.

Lemma js_sub a b : js_number (sub a b).
Proof. apply js_add. Qed.

Lemma js_inf_of s : js_number (inf_of s).
Proof. destruct s; exact I. Qed.


Lemma js_div a b : js_number (div a b).
Proof.
  destruct a as [| | |x], b as [| | |y]; try exact I;
    unfold div; try apply js_inf_of; try exact round64_0.
  destruct (Qeq_bool y 0); [apply js_inf_of | apply js_round64].
Qed.

Lemma js_Number v : js_number (Number v).
Proof.
  unfold Number. destruct (trim v); [reflexivity|].
  destruct (non_decimal _); [apply js_round64|].
  destruct (sign_of _) as [sg r].
  destruct (text_eqb _ _); [destruct sg; exact I|].
  destruct (unsigned_decimal r); [apply js_round64 | exact I].
Qed.

(** *** The Kelly fraction on validated inputs *)

Section KellyChain.

Variables p b : Q.
Hypothesis Jp : round64 p = Fin p.
Hypothesis Jb : round64 b = Fin b.
Hypothesis Hp : 0 < p /\ p < 1.
Hypothesis Hb : 0 < b.

Lemma q_range :
  exists q', sub (literal 1) (Fin p) = Fin q' /\ 0 <= q' /\ q' <= 1
             /\ round64 q' = Fin q'.
Proof.
  rewrite lit_1, sub_Fin.
  apply (round64_between 0 0 1 1); [exact round64_0 | exact round64_1 | lra | lra].
Qed.

Lemma bp_range :
  exists y, mul (Fin b) (Fin p) = Fin y /\ 0 <= y /\ y <= b
            /\ round64 y = Fin y.
Proof.
  rewrite mul_Fin.
  apply (round64_between 0 0 b b); [exact round64_0 | exact Jb | nra | nra].
Qed.

Lemma numerator_range :
  exists n, sub (mul (Fin b) (Fin p)) (sub (literal 1) (Fin p)) = Fin n
            /\ - (1) <= n /\ n <= b /\ round64 n = Fin n.
Proof.
  destruct q_range as (q' & -> & Q0 & Q1 & _).
  destruct bp_range as (y & -> & Y0 & Y1 & _).
  rewrite sub_Fin.
  assert (L : - (1) <= y - q') by lra.
  assert (U : y - q' <= b) by lra.
  destruct (round64_between (- (1)) (-1 # 1) b b (y - q') round64_m1 Jb L U)
    as (n & E & N0 & N1 & J).
  exists n. repeat split; try assumption; lra.
Qed.

Lemma kellyFraction_range :
  kellyFraction (Fin p) (Fin b) = NInf
  \/ exists f, kellyFraction (Fin p) (Fin b) = Fin f /\ f <= 1
               /\ round64 f = Fin f.
Proof.
  unfold kellyFraction.
  destruct numerator_range as (n & -> & N0 & N1 & _).
  rewrite div_Fin by lra.
  apply (round64_upper 1 1); [exact round64_1|].
  apply Qle_shift_div_r; lra.
Qed.

Lemma fStarClamped_range :
  exists c, Math_max (literal 0) (kellyFraction (Fin p) (Fin b)) = Fin c
            /\ 0 <= c /\ c <= 1 /\ round64 c = Fin c.
Proof.
  rewrite lit_0.
  destruct kellyFraction_range as [->|(f & -> & F1 & J)].
  - exists 0. split; [reflexivity|]. split; [lra|]. split; [lra | exact round64_0].
  - cbn [Math_max lt]. destruct (Qle_bool f 0) eqn:E; cbn [negb].
    + exists 0. split; [reflexivity|]. split; [lra|]. split; [lra | exact round64_0].
    + exists f. repeat split; try assumption.
      destruct (Qlt_le_dec f 0) as [C|C]; [|exact C].
      assert (Qle_bool f 0 = true) by (apply Qle_bool_iff; lra). congruence.
Qed.

End KellyChain.

Lemma lit_9999 : literal (9999 # 10000) = Fin cap.
Proof. vm_compute. reflexivity. Qed.

Lemma clamp_NaN lo hi : clamp NaN lo hi = NaN.
Proof. unfold clamp. destruct lo, hi; reflexivity. Qed.

Lemma clamp_range x :
  x <> NaN ->
  exists y, clamp x (literal 0) (literal (9999 # 10000)) = Fin y
            /\ 0 <= y /\ y <= cap.
Proof.
  intros Hx. rewrite lit_0, lit_9999. unfold clamp.
  assert (M : 0 <= cap) by (vm_compute; discriminate).
  destruct x as [| | |x]; [contradiction | | |].
  - exists cap. split; [reflexivity|]. lra.
  - exists 0. split; [reflexivity|]. lra.
  - cbn [Math_max lt]. destruct (Qle_bool x 0) eqn:E; cbn [negb].
    + exists 0. split; [reflexivity|]. lra.
    + assert (0 < x).
      { apply Qnot_le_lt. intros C. apply Qle_bool_iff in C. congruence. }
      cbn [Math_min lt]. destruct (Qle_bool cap x) eqn:E2; cbn [negb].
      * exists cap. split; [reflexivity|]. lra.
      * exists x. split; [reflexivity|]. split; [lra|].
        apply Qlt_le_weak, Qnot_le_lt. intros C. apply Qle_bool_iff in C. congruence.
Qed.

(** *** Parsers return Numbers *)

Lemma js_parseProbability v f x :
  parseProbability v f = Some x -> js_number x /\ isFinite (Number v) = true.
Proof.
  unfold parseProbability.
  destruct (isFinite (Number v)) eqn:E; cbn [negb]; [|discriminate].
  destruct (String.eqb f "percent"); intros H; injection H as <-;
    (split; [|reflexivity]); [apply js_div | apply js_Number].
Qed.

Lemma js_parseNetOdds s f x : parseNetOdds s f = Some x -> js_number x.
Proof.
  unfold parseNetOdds. destruct (trim s) as [|c t]; [discriminate|].
  destruct (String.eqb f "decimal").
  - destruct (_ || _); [discriminate|]. intros H; injection H as <-. apply js_sub.
  - destruct (split _ _) as [|p0 [|p1 [|]]]; try discriminate.
    destruct (_ || _); [discriminate|]. intros H; injection H as <-. apply js_div.
Qed.

(** *** Validation *)

Lemma push_if_nil c m l : push_if c m l = [] -> c = false /\ l = [].
Proof.
  unfold push_if. destruct c; [|auto].
  destruct l; discriminate.
Qed.

Lemma validate_nil p b :
  validate p b = [] ->
  exists p' b', p = Some (Fin p') /\ b = Some (Fin b')
                /\ 0 < p' /\ p' < 1 /\ 0 < b'.
Proof.
  unfold validate, p_missing, p_out_of_range, odds_invalid, b_not_positive.
  intros H.
  apply push_if_nil in H. destruct H as [C4 H].
  apply push_if_nil in H. destruct H as [C3 H].
  apply push_if_nil in H. destruct H as [C2 H].
  apply push_if_nil in H. destruct H as [C1 _].
  destruct p as [[| | |p']|]; try discriminate.
  destruct b as [[| | |b']|]; try discriminate.
  exists p', b'. rewrite lit_0 in *. rewrite lit_1 in C2.
  apply orb_false_iff in C2. destruct C2 as [C2a C2b].
  cbn [le ge] in C2a, C2b, C4.
  repeat split; try reflexivity; apply Qnot_le_lt; intros C;
    apply Qle_bool_iff in C; congruence.
Qed.

Section Update.

Variable Math_log : number -> number.

Lemma update_Valid i r :
  update Math_log i = Valid r ->
  exists p' b',
    parseProbability (pEl i) (pFormatEl i) = Some (Fin p')
    /\ parseNetOdds (oddsEl i) (oddsFormatEl i) = Some (Fin b')
    /\ round64 p' = Fin p' /\ round64 b' = Fin b'
    /\ (0 < p' /\ p' < 1) /\ 0 < b'
    /\ b r = Fin b'
    /\ q r = sub (literal 1) (Fin p')
    /\ fStar r = kellyFraction (Fin p') (Fin b')
    /\ fStarClamped r = Math_max (literal 0) (fStar r)
    /\ fAppliedRaw r = mul (Number (fractionalEl i)) (fStarClamped r)
    /\ fApplied r = clamp (fAppliedRaw r) (literal 0) (literal (9999 # 10000))
    /\ g r = expectedLogGrowth Math_log (Fin p') (Fin b') (fApplied r).
Proof.
  unfold update.
  destruct (validate _ _) as [|m ms] eqn:V.
  2:{ destruct (parseProbability _ _), (parseNetOdds _ _); discriminate. }
  destruct (validate_nil _ _ V) as (p' & b' & EP & EB & P0 & P1 & B0).
  rewrite EP, EB. intros H. injection H as <-.
  exists p', b'. cbn [b q fStar fStarClamped fAppliedRaw fApplied g].
  pose proof (js_parseProbability _ _ _ EP) as [JP _].
  pose proof (js_parseNetOdds _ _ _ EB) as JB.
  repeat split; try reflexivity; assumption.
Qed.

End Update.

Section Claims.

Variable Math_log : number -> number.

Lemma fApplied_cases i r :
  update Math_log i = Valid r ->
  fApplied r = NaN
  \/ exists f, fApplied r = Fin f /\ 0 <= f /\ f <= cap.
Proof.
  intros H.
  destruct (update_Valid Math_log i r H)
    as (p' & b' & _ & _ & _ & _ & _ & _ & _ & _ & _ & _ & _ & EA & _).
  rewrite EA.
  destruct (fAppliedRaw r) as [| | |x] eqn:E.
  - left. apply clamp_NaN.
  - right. apply clamp_range. discriminate.
  - right. apply clamp_range. discriminate.
  - right. apply clamp_range. discriminate.
Qed.

(** C3: on the success path, for every multiplier [k >= 0] read from the
    slider, the applied fraction [clamp (k * fStarClamped) 0 0.9999] lies in
    the closed interval from [0] to [0.9999]. *)
Theorem fApplied_in_range i r k :
  update Math_log i = Valid r ->
  Number (fractionalEl i) = Fin k -> 0 <= k ->
  le (literal 0) (fApplied r) = true
  /\ le (fApplied r) (literal (9999 # 10000)) = true.
Proof.
  intros H Hk K0.
  destruct (update_Valid Math_log i r H)
    as (p' & b' & _ & _ & JP & JB & HP & HB & _ & _ & ES & EC & ER & EA & _).
  destruct (fStarClamped_range p' b' JB HP HB) as (c & Ec & C0 & C1 & _).
  rewrite <- ES in Ec. rewrite Ec in EC.
  rewrite EC, Hk, mul_Fin in ER.
  assert (NN : fAppliedRaw r <> NaN) by (rewrite ER; apply round64_not_NaN).
  destruct (clamp_range _ NN) as (y & Ey & Y0 & Y1).
  rewrite EA, Ey, lit_0, lit_9999.
  split; apply le_Fin; assumption.
Qed.

Lemma growth_defined p' b' f :
  0 < b' -> 0 <= f -> f <= cap ->
  expectedLogGrowth Math_log (Fin p') (Fin b') (Fin f) <> None.
Proof.
  intros B0 F0 F1. unfold expectedLogGrowth.
  assert (W : le (add (literal 1) (mul (Fin f) (Fin b'))) (literal 0) = false).
  { rewrite lit_0, lit_1, mul_Fin.
    destruct (round64_lower 0 0 (f * b') round64_0) as [->|(y & -> & Y0 & _)];
      [nra | reflexivity |].
    rewrite add_Fin.
    destruct (round64_lower 1 1 (1 + y) round64_1) as [->|(w & -> & W1 & _)];
      [lra | reflexivity |].
    cbn [le]. destruct (Qle_bool w 0) eqn:E; [|reflexivity].
    apply Qle_bool_iff in E. lra. }
  assert (L : le (sub (literal 1) (Fin f)) (literal 0) = false).
  { rewrite lit_0, lit_1, sub_Fin.
    apply round64_pos.
    assert (pow2 emin <= 1 - cap) by (vm_compute; discriminate). lra. }
  rewrite W, L. discriminate.
Qed.

(** C2: on the success path ([p] strictly between 0 and 1 and [b > 0] after
    validation) the growth is always present: [expectedLogGrowth] does not
    return [null] at the applied fraction, whatever the multiplier is. *)
Theorem growth_present i r :
  update Math_log i = Valid r -> g r <> None.
Proof.
  intros H.
  destruct (update_Valid Math_log i r H)
    as (p' & b' & _ & _ & _ & _ & _ & HB & _ & _ & _ & _ & _ & _ & EG).
  rewrite EG.
  destruct (fApplied_cases i r H) as [->|(f & -> & F0 & F1)].
  - unfold expectedLogGrowth. rewrite lit_0, lit_1. discriminate.
  - apply growth_defined; assumption.
Qed.

End Claims.

Lemma scenario1_valid :
  exists r, update log_approx scenario1 = Valid r.
Proof.
  unfold update.
  assert (P : parseProbability (pEl scenario1) (pFormatEl scenario1)
              = Some (literal (55 # 100))) by (vm_compute; reflexivity).
  assert (B : parseNetOdds (oddsEl scenario1) (oddsFormatEl scenario1)
              = Some (literal (11 # 10))) by (vm_compute; reflexivity).
  assert (V : validate (Some (literal (55 # 100))) (Some (literal (11 # 10)))
              = []) by (vm_compute; reflexivity).
  rewrite P, B, V. eexists. reflexivity.
Qed.

Lemma growth_present_witness :
  exists r, update log_approx scenario1 = Valid r /\ g r <> None.
Proof.
  destruct scenario1_valid as [r E]. exists r.
  split; [exact E | exact (growth_present log_approx scenario1 r E)].
Defined.

Lemma fApplied_in_range_witness :
  exists r,
    update log_approx scenario1 = Valid r
    /\ Number (fractionalEl scenario1) = Fin 1 /\ 0 <= 1
    /\ le (literal 0) (fApplied r) = true
    /\ le (fApplied r) (literal (9999 # 10000)) = true.
Proof.
  destruct scenario1_valid as [r E]. exists r.
  assert (K : Number (fractionalEl scenario1) = Fin 1)
    by (vm_compute; reflexivity).
  assert (K0 : 0 <= 1) by discriminate.
  split; [exact E|]. split; [exact K|]. split; [exact K0|].
  exact (fApplied_in_range log_approx scenario1 r 1 E K K0).
Defined.


(** *** Where the growth is undefined *)

Lemma Qle_bool_false x y : Qle_bool x y = false <-> y < x.
Proof.
  split.
  - intros E. apply Qnot_le_lt. intros C. apply Qle_bool_iff in C. congruence.
  - intros H. destruct (Qle_bool x y) eqn:E; [|reflexivity].
    apply Qle_bool_iff in E. lra.
Qed.

Lemma round64_nonpos x : x <= 0 -> le (round64 x) (Fin 0) = true.
Proof. intros H. rewrite <- round64_0. apply round64_mono, H. Qed.












Section Growth.

Variable Math_log : number -> number.

(** The natural logarithm of a positive binary64 value lies between -745
    and 710; an implementation of [Math.log] is assumed to return a finite
    Number of magnitude at most 1024 there. *)
Hypothesis Math_log_bounded :
  forall x, 0 < x -> round64 x = Fin x ->
  exists y, Math_log (Fin x) = Fin y /\ Qabs y <= 1024.


End Growth.

(** *** The reference logarithm is bounded *)







(** *** Trimming *)

Lemma trim_start_head s : head_not_space (trim_start s).
Proof.
  induction s as [|c r IH]; cbn [trim_start]; [exact I|].
  destruct (is_space c) eqn:E; [exact IH | exact E].
Qed.

Lemma trim_start_fix s : head_not_space s -> trim_start s = s.
Proof.
  destruct s as [|c r]; [reflexivity|]. cbn. intros ->. reflexivity.
Qed.

Lemma trim_start_suffix s : exists pre, s = pre ++ trim_start s.
Proof.
  induction s as [|c r [pre IH]]; [exists []; reflexivity|].
  cbn [trim_start]. destruct (is_space c).
  - exists (c :: pre). cbn. f_equal. exact IH.
  - exists []. reflexivity.
Qed.

Lemma trim_head s : head_not_space (trim s).
Proof.
  unfold trim.
  pose proof (trim_start_head s) as H.
  destruct (trim_start_suffix (rev (trim_start s))) as [pre E].
  set (v := trim_start (rev (trim_start s))) in *.
  apply (f_equal (@rev code_unit)) in E. rewrite rev_involutive, rev_app_distr in E.
  destruct (rev v) as [|c t]; [exact I|].
  rewrite E in H. exact H.
Qed.

Lemma trim_idem s : trim (trim s) = trim s.
Proof.
  unfold trim at 1. rewrite (trim_start_fix _ (trim_head s)).
  unfold trim. rewrite rev_involutive.
  rewrite (trim_start_fix _ (trim_start_head _)). reflexivity.
Qed.

Lemma Number_trim s : Number (trim s) = Number s.
Proof. unfold Number. rewrite trim_idem. reflexivity. Qed.

(** *** Decimal odds *)

Lemma decimal_odds_eq s :
  parseNetOdds s "decimal" =
  if isFinite (Number s) && gt (Number s) (literal 1)
  then Some (sub (Number s) (literal 1)) else None.
Proof.
  unfold parseNetOdds. rewrite String.eqb_refl.
  destruct (trim s) as [|c t] eqn:E.
  - unfold Number. rewrite E. rewrite lit_1. reflexivity.
  - rewrite <- E, Number_trim, lit_1.
    destruct (Number s) as [| | |d]; try reflexivity.
    unfold gt. cbn [isFinite negb orb andb le lt].
    destruct (Qle_bool d 1); reflexivity.
Qed.

(** C7: for an odds text that [Number] reads as [D], in decimal format: if
    [D] is finite and [D > 1] then [parseNetOdds] returns [D - 1]; if
    [D <= 1] (also [D = 1]) or [D] is not finite, it returns [null]. *)
Theorem parseNetOdds_decimal s :
  (isFinite (Number s) = true -> gt (Number s) (literal 1) = true ->
   parseNetOdds s "decimal" = Some (sub (Number s) (literal 1)))
  /\ (le (Number s) (literal 1) = true -> parseNetOdds s "decimal" = None)
  /\ (isFinite (Number s) = false -> parseNetOdds s "decimal" = None).
Proof.
  rewrite decimal_odds_eq.
  split; [|split].
  - intros -> ->. reflexivity.
  - rewrite lit_1. destruct (Number s) as [| | |d]; try reflexivity; try discriminate.
    unfold gt. cbn [isFinite andb le lt]. intros ->. reflexivity.
  - intros ->. reflexivity.
Qed.

(** *** Net odds are never negative *)

Lemma Fin_zero y : round64 y = Fin y -> y == 0 -> y = 0.
Proof.
  intros J E. destruct (round64_Fin y y J) as [R _].
  pose proof (Qred_correct (sround y)) as S. rewrite <- R in S.
  rewrite R. apply (Qred_complete (sround y) 0).
  rewrite <- S. exact E.
Qed.

(** C9, amended: a value that [parseNetOdds] returns is never negative; in
    decimal format it is strictly positive; it is [<= 0] only when it is the
    zero to which a fractional quotient [A / B] has underflowed, and only
    then can the check [b <= 0] of [update] fire. *)
Theorem parseNetOdds_sign s fmt v :
  parseNetOdds s fmt = Some v ->
  le (literal 0) v = true
  /\ (fmt = "decimal"%string -> lt (literal 0) v = true)
  /\ (le v (literal 0) = true -> v = Fin 0 /\ fmt <> "decimal"%string).
Proof.
  unfold parseNetOdds. cbv zeta. rewrite lit_0, lit_1. intros H.
  destruct (trim s) as [|c t]; [discriminate|].
  destruct (String.eqb_spec fmt "decimal") as [F|F].
  - destruct (Number (c :: t)) as [| | |d] eqn:ED; try discriminate.
    pose proof (js_Number (c :: t)) as J. rewrite ED in J. cbn [js_number] in J.
    cbn [isFinite negb orb le] in H.
    destruct (Qle_bool d 1) eqn:E; [discriminate|].
    apply Qle_bool_false in E.
    assert (V : v = round64 (d - 1)) by (injection H as <-; reflexivity).
    clear H. subst v.
    pose proof (js_gap 1 d round64_1 J E) as G.
    destruct (round64_between _ _ _ _ (d - 1) round64_MIN_VALUE J)
      as (x & -> & X0 & _); [lra | lra |].
    pose proof MIN_VALUE_pos as M.
    assert (E0 : Qle_bool x 0 = false) by (apply Qle_bool_false; lra).
    cbn [le lt]. rewrite E0. repeat split; try reflexivity; try discriminate.
    apply Qle_bool_iff. lra.
  - destruct (split (code "/") (c :: t)) as [|p0 [|p1 [|]]]; try discriminate.
    destruct (Number (trim p0)) as [| | |a] eqn:EA; try discriminate.
    destruct (Number (trim p1)) as [| | |b'] eqn:EB; try discriminate.
    cbn [isFinite negb orb le] in H.
    destruct (Qle_bool b' 0) eqn:E1; [discriminate|].
    destruct (Qle_bool a 0) eqn:E2; [discriminate|].
    apply Qle_bool_false in E1, E2.
    assert (V : v = div (Fin a) (Fin b')) by (injection H as <-; reflexivity).
    clear H. subst v. rewrite div_Fin by lra.
    assert (Q0 : 0 <= a / b') by (apply Qle_shift_div_l; lra).
    destruct (round64_lower 0 0 (a / b') round64_0 Q0) as [->|(y & -> & Y0 & J)].
    + repeat split; try reflexivity; discriminate.
    + split; [apply le_Fin, Y0|]. split; [intros; contradiction|].
      intros H. apply le_Fin in H. split; [|exact F].
      f_equal. apply (Fin_zero y J). lra.
Qed.

(** C9 as stated fails: "1e-200/1e200" parses to a zero, which is not
    strictly positive, and [update] then reports that [b] must be [> 0]. *)
Lemma parseNetOdds_underflow :
  parseNetOdds (oddsEl underflow_odds) (oddsFormatEl underflow_odds)
  = Some (Fin 0)
  /\ lt (literal 0) (Fin 0) = false
  /\ update log_approx underflow_odds = Invalid [problem_b_positive].
Proof. repeat split; vm_compute; reflexivity. Qed.

Lemma parseNetOdds_sign_witness :
  parseNetOdds (of_string "11/10") "fractional" = Some (literal (11 # 10))
  /\ le (literal 0) (literal (11 # 10)) = true.
Proof.
  assert (H : parseNetOdds (of_string "11/10") "fractional" = Some (literal (11 # 10)))
    by (vm_compute; reflexivity).
  split; [exact H|].
  exact (proj1 (parseNetOdds_sign _ _ _ H)).
Defined.

(** C8: for [p] in (0,1) and [b > 0], [kellyFraction p b] is
    [(b * p - (1 - p)) / b]: the product, the two differences and the
    quotient are each the correctly rounded exact result, and none of the
    first three is [NaN] or infinite. *)
Theorem kellyFraction_formula (p b : Q) :
  round64 b = Fin b -> 0 < p -> p < 1 -> 0 < b ->
  kellyFraction (Fin p) (Fin b)
  = div (sub (mul (Fin b) (Fin p)) (sub (literal 1) (Fin p))) (Fin b)
  /\ exists bp q' n,
       round64 (b * p) = Fin bp /\ round64 (1 - p) = Fin q'
       /\ round64 (bp - q') = Fin n
       /\ kellyFraction (Fin p) (Fin b) = round64 (n / b).
Proof.
  intros Jb P0 P1 B0. split; [reflexivity|].
  destruct (q_range p (conj P0 P1)) as (q' & Eq & _).
  destruct (bp_range p b Jb (conj P0 P1) B0) as (bp & Ebp & _).
  destruct (numerator_range p b Jb (conj P0 P1) B0) as (n & En & _).
  exists bp, q', n. unfold kellyFraction.
  rewrite En, div_Fin by lra.
  rewrite Ebp, Eq, sub_Fin in En. rewrite mul_Fin in Ebp.
  rewrite lit_1, sub_Fin in Eq. auto.
Qed.

Lemma kellyFraction_formula_witness :
  round64 3 = Fin 3 /\ 0 < 1 # 2 /\ 1 # 2 < 1 /\ 0 < 3
  /\ kellyFraction (Fin (1 # 2)) (Fin 3)
     = div (sub (mul (Fin 3) (Fin (1 # 2))) (sub (literal 1) (Fin (1 # 2))))
           (Fin 3).
Proof.
  assert (J : round64 3 = Fin 3) by (vm_compute; reflexivity).
  assert (P0 : 0 < 1 # 2) by reflexivity.
  assert (P1 : 1 # 2 < 1) by reflexivity.
  assert (B0 : 0 < 3) by reflexivity.
  repeat (split; [assumption|]).
  exact (proj1 (kellyFraction_formula (1 # 2) 3 J P0 P1 B0)).
Defined.

(** C1 as stated fails: the run does not give [fStar] about [0.0909]. *)
Lemma scenario1_not_as_stated :
  ~ scenario1_as_stated (update log_approx scenario1).
Proof.
  intros (r & E & _ & _ & F & _).
  assert (V : exists r0, update log_approx scenario1 = Valid r0
                         /\ ~ shown 4 (fStar r0) (909 # 10000)).
  { eexists. split; [vm_compute; reflexivity|]. vm_compute. auto. }
  destruct V as (r0 & E0 & N). rewrite E0 in E. injection E as ->.
  exact (N F).
Qed.

Lemma update_success Math_log i p' b' :
  parseProbability (pEl i) (pFormatEl i) = Some p' ->
  parseNetOdds (oddsEl i) (oddsFormatEl i) = Some b' ->
  validate (Some p') (Some b') = [] ->
  exists r, update Math_log i = Valid r
    /\ b r = b' /\ q r = sub (literal 1) p'
    /\ fStar r = kellyFraction p' b'
    /\ fStarClamped r = Math_max (literal 0) (kellyFraction p' b')
    /\ fApplied r
       = clamp (mul (Number (fractionalEl i))
                    (Math_max (literal 0) (kellyFraction p' b')))
               (literal 0) (literal (9999 # 10000))
    /\ stake r
       = match bankrollEl i with
         | [] => None
         | v =>
             if isFinite (Number v) && gt (Number v) (literal 0)
             then Some (mul (Number v) (fApplied r)) else None
         end.
Proof.
  intros EP EB V. unfold update. rewrite EP, EB, V.
  eexists. split; [reflexivity|].
  cbn [b q fStar fStarClamped fApplied stake].
  repeat split. destruct (bankrollEl i); reflexivity.
Qed.

(** C1, amended: probability "0.55" and odds "2.10", both decimal, [k = 1]
    and bankroll "1000" give [b = 1.1], [q] about [0.45], [fStar],
    [fStarClamped] and [fApplied] about [0.1409] and a stake of about
    [140.91]. *)
Theorem scenario1_result (Math_log : number -> number) :
  exists r, update Math_log scenario1 = Valid r
    /\ b r = literal (11 # 10) /\ shown 4 (q r) (45 # 100)
    /\ shown 4 (fStar r) (1409 # 10000)
    /\ shown 4 (fStarClamped r) (1409 # 10000)
    /\ shown 4 (fApplied r) (1409 # 10000)
    /\ exists s, stake r = Some s /\ shown 2 s (14091 # 100).
Proof.
  destruct (update_success Math_log scenario1
              (literal (55 # 100)) (literal (11 # 10)))
    as (r & E & Eb & Eq & Ef & Ec & Ea & Es);
    [vm_compute; reflexivity | vm_compute; reflexivity | vm_compute; reflexivity |].
  exists r. split; [exact E|].
  rewrite Es, Ea, Eb, Eq, Ef, Ec.
  split; [reflexivity|].
  split; [vm_compute; discriminate|].
  split; [vm_compute; discriminate|].
  split; [vm_compute; discriminate|].
  split; [vm_compute; discriminate|].
  eexists. split; [vm_compute; reflexivity|]. vm_compute; discriminate.
Qed.

(** C5: odds "11/10" in fractional format parse to [b = 1.1], and [update]
    gives the same outcome as with odds "2.10" in decimal format, all other
    inputs being equal. *)
Theorem fractional_11_10 (Math_log : number -> number) :
  parseNetOdds (of_string "11/10") "fractional" = Some (literal (11 # 10))
  /\ forall bk p pf k,
       update Math_log
         {| bankrollEl := bk; pEl := p; pFormatEl := pf;
            oddsEl := of_string "11/10"; oddsFormatEl := "fractional";
            fractionalEl := k |}
       = update Math_log
           {| bankrollEl := bk; pEl := p; pFormatEl := pf;
              oddsEl := of_string "2.10"; oddsFormatEl := "decimal";
              fractionalEl := k |}.
Proof.
  assert (F : parseNetOdds (of_string "11/10") "fractional" = Some (literal (11 # 10)))
    by (vm_compute; reflexivity).
  assert (D : parseNetOdds (of_string "2.10") "decimal" = Some (literal (11 # 10)))
    by (vm_compute; reflexivity).
  split; [exact F|].
  intros bk p pf k. unfold update.
  cbn [bankrollEl pEl pFormatEl oddsEl oddsFormatEl fractionalEl].
  rewrite F, D. reflexivity.
Qed.

(** C10: [parseProbability] of the empty text is [0] in either format, never
    [null]; so [update] reports an empty probability as out of the open
    interval (0,1) and not as missing. *)
Theorem empty_probability (Math_log : number -> number) :
  (forall fmt, parseProbability [] fmt = Some (Fin 0))
  /\ forall bk pf o ofm k,
       exists problems,
         update Math_log
           {| bankrollEl := bk; pEl := []; pFormatEl := pf;
              oddsEl := o; oddsFormatEl := ofm; fractionalEl := k |}
         = Invalid problems
         /\ In problem_p_range problems
         /\ ~ In problem_p_missing problems.
Proof.
  assert (P : forall fmt, parseProbability [] fmt = Some (Fin 0)).
  { intros fmt. unfold parseProbability.
    change (Number []) with (Fin 0). cbn [isFinite negb].
    destruct (String.eqb fmt "percent"); [|reflexivity].
    rewrite lit_100, div_Fin by (intro C; discriminate C).
    vm_compute. reflexivity. }
  split; [exact P|].
  intros bk pf o ofm k. unfold update.
  cbn [bankrollEl pEl pFormatEl oddsEl oddsFormatEl fractionalEl].
  rewrite P.
  set (b0 := parseNetOdds o ofm).
  assert (M : p_missing (Some (Fin 0)) = false) by reflexivity.
  assert (R : p_out_of_range (Some (Fin 0)) = true) by (vm_compute; reflexivity).
  unfold validate. rewrite M, R.
  destruct (odds_invalid b0), (b_not_positive b0); cbn [push_if app];
    eexists; (split; [reflexivity|]); (split; [left; reflexivity|]);
    intros H; cbn [In] in H;
    repeat (destruct H as [H|H]; [discriminate H|]); exact H.
Qed.

Ltac not_in :=
  let H := fresh in
  intros H; cbn [In] in H;
  repeat (destruct H as [H|H]; [discriminate H|]); exact H.

Ltac solve_iff :=
  let H := fresh in
  split;
  [ intros H; first [discriminate H | cbn [In]; auto 6]
  | intros H; first [reflexivity | exfalso; revert H; not_in] ].

(** C4: [update] reports every violated precondition, not only the first
    (each of the four messages is listed exactly when its condition holds);
    when any is violated the outcome is the problem list alone, without
    numeric outputs.  A non-numeric probability with invalid odds gives both
    problems. *)
Theorem validation_exhaustive (Math_log : number -> number) :
  (forall i,
     let p := parseProbability (pEl i) (pFormatEl i) in
     let b := parseNetOdds (oddsEl i) (oddsFormatEl i) in
     let problems := validate p b in
     (p_missing p = true <-> In problem_p_missing problems)
     /\ (p_out_of_range p = true <-> In problem_p_range problems)
     /\ (odds_invalid b = true <-> In problem_odds_invalid problems)
     /\ (b_not_positive b = true <-> In problem_b_positive problems)
     /\ (p_missing p || p_out_of_range p || odds_invalid b
         || b_not_positive b = true ->
         update Math_log i = Invalid problems
         /\ numeric_outputs (update Math_log i) = None))
  /\ update Math_log
       {| bankrollEl := []; pEl := of_string "abc"; pFormatEl := "decimal";
          oddsEl := of_string "0.5"; oddsFormatEl := "decimal";
          fractionalEl := of_string "1" |}
     = Invalid [problem_p_missing; problem_odds_invalid].
Proof.
  split.
  - intros i p b problems. subst problems. unfold update. fold p. fold b.
    unfold validate.
    destruct (p_missing p), (p_out_of_range p), (odds_invalid b),
      (b_not_positive b);
      cbn [push_if app orb];
      repeat (split; [solve_iff|]);
      intros H; first [discriminate H | split; reflexivity].
  - vm_compute. reflexivity.
Qed.

(** * Further properties of the calculator *)

(** ** [parseProbability] *)

Lemma div_100_finite x :
  round64 x = Fin x ->
  exists y, div (Fin x) (literal 100) = Fin y /\ round64 y = Fin y.
Proof.
  intros J. rewrite lit_100, div_Fin by (intro C; discriminate C).
  destruct (Qlt_le_dec x 0) as [N|P].
  - destruct (round64_between x x 0 0 (x / 100) J round64_0) as (y & E & _ & _ & Jy).
    + apply Qle_shift_div_l; [reflexivity | lra].
    + apply Qle_shift_div_r; [reflexivity | lra].
    + exists y. auto.
  - destruct (round64_between 0 0 x x (x / 100) round64_0 J) as (y & E & _ & _ & Jy).
    + apply Qle_shift_div_l; [reflexivity | lra].
    + apply Qle_shift_div_r; [reflexivity | lra].
    + exists y. auto.
Qed.

(** X1: [parseProbability] is [null] exactly when [Number] of the text is not
    finite, and a value it returns is always finite; so the "missing or not
    a number" check of [update] fires exactly when [Number] of the text is
    not finite. *)
Theorem parseProbability_finite v fmt :
  (parseProbability v fmt = None <-> isFinite (Number v) = false)
  /\ (forall x, parseProbability v fmt = Some x -> isFinite x = true)
  /\ p_missing (parseProbability v fmt) = negb (isFinite (Number v)).
Proof.
  unfold parseProbability.
  pose proof (js_Number v) as J.
  destruct (Number v) as [| | |x]; cbn [isFinite negb];
    try (repeat split; try reflexivity; intros; discriminate).
  cbn [js_number] in J.
  destruct (div_100_finite x J) as (y & E & _).
  destruct (String.eqb fmt "percent"); rewrite ?E; cbn [p_missing isFinite negb];
    (split; [split; intros; discriminate|]);
    (split; [|reflexivity]); intros z H; injection H as <-; reflexivity.
Qed.

(** ** [clamp] *)

Ltac qbool :=
  repeat match goal with
  | H : Qle_bool _ _ = true |- _ => apply Qle_bool_iff in H
  | H : Qle_bool _ _ = false |- _ => apply Qle_bool_false in H
  | |- Qle_bool _ _ = true => apply Qle_bool_iff
  | |- Qle_bool _ _ = false => apply Qle_bool_false
  end.

(** X6: for bounds [min <= max], [clamp x min max] is [NaN] exactly when [x]
    is; otherwise it lies between the bounds, it is [x] itself when [x] is
    strictly between them, and it is always one of [x], [min] and [max]. *)
Theorem clamp_spec x lo hi :
  lo <> NaN -> hi <> NaN -> le lo hi = true ->
  (clamp x lo hi = NaN <-> x = NaN)
  /\ (x <> NaN ->
      le lo (clamp x lo hi) = true /\ le (clamp x lo hi) hi = true)
  /\ (lt lo x = true -> lt x hi = true -> clamp x lo hi = x)
  /\ (clamp x lo hi = x \/ clamp x lo hi = lo \/ clamp x lo hi = hi).
Proof.
  intros Hlo Hhi H. unfold clamp.
  destruct lo as [| | |l]; [contradiction | | |];
    destruct hi as [| | |h]; try contradiction; try discriminate;
    destruct x as [| | |x];
    cbn [Math_max Math_min lt le negb] in *;
    repeat match goal with
    | |- context [Qle_bool ?a ?b] =>
        let E := fresh "E" in destruct (Qle_bool a b) eqn:E;
        cbn [Math_max Math_min lt le negb] in *
    end;
    qbool;
    repeat split; intros;
    try reflexivity; try discriminate; try contradiction;
    qbool; try lra;
    first [ left; reflexivity | right; left; reflexivity
          | right; right; reflexivity
          | f_equal; exfalso; lra ].
Qed.

Lemma clamp_spec_witness :
  Fin 0 <> NaN /\ Fin 1 <> NaN /\ le (Fin 0) (Fin 1) = true
  /\ clamp (Fin 3) (Fin 0) (Fin 1) = Fin 1.
Proof.
  assert (A : Fin 0 <> NaN) by discriminate.
  assert (B : Fin 1 <> NaN) by discriminate.
  assert (C : le (Fin 0) (Fin 1) = true) by reflexivity.
  repeat (split; [assumption|]).
  destruct (proj2 (proj2 (proj2 (clamp_spec (Fin 3) (Fin 0) (Fin 1) A B C))))
    as [E|[E|E]]; [| |exact E]; exfalso; vm_compute in E; discriminate E.
Defined.

(** ** The success path of [update] *)

Lemma update_Valid_stake Math_log i r :
  update Math_log i = Valid r ->
  stake r
  = match bankrollEl i with
    | [] => None
    | v =>
        if isFinite (Number v) && gt (Number v) (literal 0)
        then Some (mul (Number v) (fApplied r)) else None
    end
  /\ note r = le (fStar r) (literal 0).
Proof.
  unfold update.
  destruct (validate _ _) as [|m ms]; [|discriminate].
  destruct (parseProbability _ _); [|discriminate].
  destruct (parseNetOdds _ _); [|discriminate].
  intros H. injection H as <-. cbn [stake note fApplied fStar].
  split; [|reflexivity]. destruct (bankrollEl i); reflexivity.
Qed.

Lemma q_positive p :
  round64 p = Fin p -> p < 1 ->
  exists q', sub (literal 1) (Fin p) = Fin q' /\ 0 < q'
             \/ sub (literal 1) (Fin p) = PInf.
Proof.
  intros J P1. rewrite lit_1, sub_Fin.
  pose proof (js_gap p 1 J round64_1 P1) as G.
  destruct (round64_lower _ _ (1 - p) round64_MIN_VALUE G) as [E|(y & E & Y & _)].
  - exists 0. right. exact E.
  - exists y. left. pose proof MIN_VALUE_pos. split; [exact E | lra].
Qed.

Section Bundle.

Variable Math_log : number -> number.

(** X7: on the success path [b] is a finite positive Number, [q] lies in
    (0, 1], [fStar] is [-Infinity] or a finite Number not above 1 (never
    [NaN] or [+Infinity]), and [fStarClamped] lies in [0, 1]. *)
Theorem result_invariants i r :
  update Math_log i = Valid r ->
  (exists b', b r = Fin b' /\ 0 < b')
  /\ (exists q', q r = Fin q' /\ 0 < q' /\ q' <= 1)
  /\ (fStar r = NInf \/ exists f, fStar r = Fin f /\ f <= 1)
  /\ (exists c, fStarClamped r = Fin c /\ 0 <= c /\ c <= 1).
Proof.
  intros H.
  destruct (update_Valid Math_log i r H)
    as (p' & b' & _ & _ & JP & JB & HP & HB & Eb & Eq & ES & EC & _).
  split; [exists b'; auto|].
  split.
  { destruct (q_range p' HP) as (q' & E & Q0 & Q1 & _).
    destruct (q_positive p' JP (proj2 HP)) as (q2 & [[E2 Q2]|E2]);
      rewrite E in E2; [|discriminate].
    injection E2 as <-. exists q'. rewrite Eq. auto. }
  split.
  { rewrite ES.
    destruct (kellyFraction_range p' b' JB HP HB) as [E|(f & E & F & _)];
      [left; exact E | right; exists f; auto]. }
  destruct (fStarClamped_range p' b' JB HP HB) as (c & E & C0 & C1 & _).
  exists c. rewrite EC, ES. auto.
Qed.

Lemma fApplied_finite_k i r k :
  update Math_log i = Valid r -> Number (fractionalEl i) = Fin k ->
  exists c f,
    fStarClamped r = Fin c /\ 0 <= c /\ c <= 1
    /\ fAppliedRaw r = round64 (k * c)
    /\ fApplied r = Fin f /\ 0 <= f /\ f <= cap.
Proof.
  intros H K.
  destruct (update_Valid Math_log i r H)
    as (p' & b' & _ & _ & JP & JB & HP & HB & _ & _ & ES & EC & ER & EA & _).
  destruct (fStarClamped_range p' b' JB HP HB) as (c & Ec & C0 & C1 & _).
  rewrite <- ES, <- EC in Ec. rewrite Ec, K, mul_Fin in ER.
  assert (NN : fAppliedRaw r <> NaN) by (rewrite ER; apply round64_not_NaN).
  destruct (clamp_range _ NN) as (f & Ef & F0 & F1).
  exists c, f. rewrite EA. auto 10.
Qed.

Lemma clamp_nonpos x :
  le x (Fin 0) = true ->
  clamp x (literal 0) (literal (9999 # 10000)) = Fin 0.
Proof.
  rewrite lit_0, lit_9999. unfold clamp.
  destruct x as [| | |x]; try discriminate; [reflexivity|].
  cbn [le Math_max lt]. intros E. rewrite E. reflexivity.
Qed.

Lemma round64_zero x : x == 0 -> round64 x = Fin 0.
Proof. intros E. rewrite (round64_comp x 0 E). exact round64_0. Qed.

(** X8: with a finite multiplier of either sign the applied fraction lies in
    [0, 0.9999]; with a multiplier [k <= 0] it is [0]. *)
Theorem fApplied_any_finite_k i r k :
  update Math_log i = Valid r -> Number (fractionalEl i) = Fin k ->
  (le (literal 0) (fApplied r) = true
   /\ le (fApplied r) (literal (9999 # 10000)) = true)
  /\ (k <= 0 -> fApplied r = Fin 0).
Proof.
  intros H K.
  destruct (fApplied_finite_k i r k H K)
    as (c & f & Ec & C0 & C1 & ER & EA & F0 & F1).
  split.
  - rewrite EA, lit_0, lit_9999. split; apply le_Fin; assumption.
  - intros K0.
    destruct (update_Valid Math_log i r H)
      as (_ & _ & _ & _ & _ & _ & _ & _ & _ & _ & _ & _ & _ & EA' & _).
    rewrite EA'. apply clamp_nonpos. rewrite ER.
    apply round64_nonpos. nra.
Qed.

(** X9: when the inputs give no positive edge ([fStar <= 0], the case of the
    advisory note) and the multiplier is finite, the clamped and the applied
    fraction are [0] and the stake, when a bankroll is given, is [0]. *)
Theorem no_edge_no_stake i r k :
  update Math_log i = Valid r -> Number (fractionalEl i) = Fin k ->
  note r = true ->
  fStarClamped r = Fin 0 /\ fApplied r = Fin 0
  /\ (stake r = None \/ stake r = Some (Fin 0)).
Proof.
  intros H K N.
  destruct (update_Valid Math_log i r H)
    as (_ & _ & _ & _ & _ & _ & _ & _ & _ & _ & _ & EC & ER & EA & _).
  destruct (update_Valid_stake Math_log i r H) as [ES EN].
  rewrite EN, lit_0 in N.
  assert (C : fStarClamped r = Fin 0).
  { rewrite EC, lit_0. clear - N.
    destruct (fStar r) as [| | |f]; cbn [le] in N;
      [discriminate N | discriminate N | reflexivity |].
    cbn [Math_max lt]. rewrite N. reflexivity. }
  assert (A : fApplied r = Fin 0).
  { rewrite EA. apply clamp_nonpos. rewrite ER, C, K, mul_Fin.
    rewrite round64_zero by ring. reflexivity. }
  split; [exact C|]. split; [exact A|].
  rewrite ES, A. destruct (bankrollEl i) as [|c t]; [left; reflexivity|].
  cbv zeta.
  destruct (Number (c :: t)) as [| | |bk]; cbn [isFinite andb];
    [left; reflexivity .. |].
  destruct (gt (Fin bk) (literal 0)); [right | left; reflexivity].
  rewrite mul_Fin, round64_zero by ring. reflexivity.
Qed.

(** X10: the stake is computed exactly when the bankroll text is not empty
    and [Number] reads it as a finite positive value; with a finite
    multiplier the stake is then a finite Number between [0] and the
    bankroll. *)
Theorem stake_within_bankroll i r k :
  update Math_log i = Valid r -> Number (fractionalEl i) = Fin k ->
  (stake r <> None
   <-> bankrollEl i <> []
       /\ isFinite (Number (bankrollEl i)) = true
       /\ gt (Number (bankrollEl i)) (literal 0) = true)
  /\ (forall s, stake r = Some s ->
      exists bk sv,
        Number (bankrollEl i) = Fin bk /\ s = Fin sv /\ 0 <= sv /\ sv <= bk).
Proof.
  intros H K.
  destruct (fApplied_finite_k i r k H K)
    as (c & f & _ & _ & _ & _ & EA & F0 & F1).
  destruct (update_Valid_stake Math_log i r H) as [ES _].
  rewrite ES, EA.
  assert (CAP : cap <= 1) by (vm_compute; discriminate).
  destruct (bankrollEl i) as [|ch t].
  { split; [split; [intros C; contradiction | intros [C _]; contradiction]|].
    intros s C. discriminate. }
  cbv zeta. rewrite lit_0.
  pose proof (js_Number (ch :: t)) as J.
  destruct (Number (ch :: t)) as [| | |bk]; cbn [isFinite andb];
    [split; [split; [intros C; contradiction | intros (_ & C & _); discriminate C]|];
     intros s C; discriminate C .. |].
  cbn [js_number] in J. unfold gt. cbn [lt].
  destruct (Qle_bool bk 0) eqn:E; cbn [negb].
  { split; [split; [intros C; contradiction | intros (_ & _ & C); discriminate]|].
    intros s C. discriminate. }
  apply Qle_bool_false in E.
  split; [split; [intros _; repeat split; discriminate | intros _; discriminate]|].
  intros s C.
  assert (S : s = round64 (bk * f)) by (injection C as <-; reflexivity).
  destruct (round64_between 0 0 bk bk (bk * f) round64_0 J)
    as (sv & Es & S0 & S1 & _); [nra | nra |].
  exists bk, sv. rewrite S, Es. auto.
Qed.

End Bundle.

Lemma clamp_mono x y lo hi :
  le x y = true ->
  le (clamp x (Fin lo) (Fin hi)) (clamp y (Fin lo) (Fin hi)) = true.
Proof.
  unfold clamp. intros H.
  destruct x as [| | |x]; try discriminate;
    destruct y as [| | |y]; try discriminate;
    cbn [Math_max Math_min lt le negb] in *;
    repeat match goal with
    | |- context [Qle_bool ?a ?b] =>
        let E := fresh "E" in destruct (Qle_bool a b) eqn:E;
        cbn [Math_max Math_min lt le negb] in *
    end;
    qbool; try reflexivity; try discriminate; try lra.
Qed.

Section Multiplier.

Variable Math_log : number -> number.

(** X11: two runs on the same probability, odds and bankroll with finite
    multipliers [k1 <= k2]: the applied fraction of the first is not above
    that of the second, and neither is the stake. *)
Theorem fApplied_monotone i1 i2 r1 r2 k1 k2 :
  update Math_log i1 = Valid r1 -> update Math_log i2 = Valid r2 ->
  pEl i1 = pEl i2 -> pFormatEl i1 = pFormatEl i2 ->
  oddsEl i1 = oddsEl i2 -> oddsFormatEl i1 = oddsFormatEl i2 ->
  bankrollEl i1 = bankrollEl i2 ->
  Number (fractionalEl i1) = Fin k1 -> Number (fractionalEl i2) = Fin k2 ->
  k1 <= k2 ->
  le (fApplied r1) (fApplied r2) = true
  /\ (forall s1 s2, stake r1 = Some s1 -> stake r2 = Some s2 ->
      le s1 s2 = true).
Proof.
  intros H1 H2 Ep Epf Eo Eof Ebk K1 K2 K.
  destruct (update_Valid Math_log i1 r1 H1)
    as (p1 & b1 & P1 & B1 & _ & JB & HP & HB & _ & _ & ES1 & EC1 & ER1 & EA1 & _).
  destruct (update_Valid Math_log i2 r2 H2)
    as (p2 & b2 & P2 & B2 & _ & _ & _ & _ & _ & _ & ES2 & EC2 & ER2 & EA2 & _).
  rewrite <- Ep, <- Epf, P1 in P2. rewrite <- Eo, <- Eof, B1 in B2.
  injection P2 as <-. injection B2 as <-.
  destruct (fStarClamped_range p1 b1 JB HP HB) as (c & Ec & C0 & _).
  rewrite <- ES1, <- EC1 in Ec. rewrite <- ES1 in ES2.
  rewrite ES2, <- EC1, Ec in EC2.
  rewrite Ec, K1, mul_Fin in ER1. rewrite EC2, K2, mul_Fin in ER2.
  assert (M : le (fApplied r1) (fApplied r2) = true).
  { rewrite EA1, EA2, ER1, ER2, lit_0, lit_9999.
    apply clamp_mono, round64_mono. nra. }
  split; [exact M|].
  destruct (update_Valid_stake Math_log i1 r1 H1) as [S1 _].
  destruct (update_Valid_stake Math_log i2 r2 H2) as [S2 _].
  rewrite <- Ebk in S2. rewrite S1, S2.
  destruct (fApplied_finite_k Math_log i1 r1 k1 H1 K1)
    as (_ & f1 & _ & _ & _ & _ & F1 & F10 & _).
  destruct (fApplied_finite_k Math_log i2 r2 k2 H2 K2)
    as (_ & f2 & _ & _ & _ & _ & F2 & F20 & _).
  rewrite F1, F2 in *. apply le_Fin in M.
  intros s1 s2. destruct (bankrollEl i1) as [|ch t]; [discriminate|].
  cbv zeta. rewrite lit_0.
  destruct (Number (ch :: t)) as [| | |bk]; cbn [isFinite andb];
    [discriminate .. |].
  unfold gt. cbn [lt]. destruct (Qle_bool bk 0) eqn:E; cbn [negb]; [discriminate|].
  apply Qle_bool_false in E.
  intros A B.
  assert (S1' : s1 = round64 (bk * f1)) by (injection A as <-; reflexivity).
  assert (S2' : s2 = round64 (bk * f2)) by (injection B as <-; reflexivity).
  rewrite S1', S2'. apply round64_mono. nra.
Qed.

(** X12: given that [Math.log 1] is [0], as ECMAScript requires, the expected
    log growth of betting nothing is [0], for [p] in (0,1) and any finite
    odds. *)
Theorem growth_of_zero_fraction (p b : Q) :
  Math_log (Fin 1) = Fin 0 -> 0 < p -> p < 1 ->
  expectedLogGrowth Math_log (Fin p) (Fin b) (Fin 0) = Some (Fin 0).
Proof.
  intros L P0 P1. unfold expectedLogGrowth.
  destruct (q_range p (conj P0 P1)) as (q' & -> & _).
  rewrite lit_0, lit_1, sub_Fin, (mul_Fin 0 b).
  rewrite (round64_zero (0 * b)) by ring. rewrite add_Fin.
  rewrite (round64_comp (1 + 0) 1) by ring.
  rewrite (round64_comp (1 - 0) 1) by ring.
  rewrite round64_1, L. cbn [le orb].
  rewrite !mul_Fin, (round64_zero (p * 0)), (round64_zero (q' * 0)) by ring.
  rewrite add_Fin, round64_zero by ring. reflexivity.
Qed.

End Multiplier.

(** ** [parseNetOdds] *)

Lemma decimal_value d :
  round64 d = Fin d -> 1 < d ->
  exists x, sub (Fin d) (literal 1) = Fin x /\ 0 < x /\ x <= d.
Proof.
  intros J D. rewrite lit_1, sub_Fin.
  pose proof (js_gap 1 d round64_1 J D) as G.
  destruct (round64_between _ _ _ _ (d - 1) round64_MIN_VALUE J)
    as (x & -> & X0 & X1 & _); [lra | lra |].
  pose proof MIN_VALUE_pos. exists x. repeat split; [lra | exact X1].
Qed.

(** X3: in decimal format [update] accepts the odds exactly when [Number] of
    the text is finite and above 1: the "missing/invalid" problem is
    reported otherwise, and the "must be > 0" problem is never reported. *)
Theorem decimal_odds_accepted s :
  odds_invalid (parseNetOdds s "decimal")
  = negb (isFinite (Number s) && gt (Number s) (literal 1))
  /\ b_not_positive (parseNetOdds s "decimal") = false.
Proof.
  rewrite decimal_odds_eq.
  pose proof (js_Number s) as J.
  destruct (Number s) as [| | |d]; cbn [isFinite andb negb];
    try (split; reflexivity).
  cbn [js_number] in J. rewrite lit_1. unfold gt. cbn [lt].
  destruct (Qle_bool d 1) eqn:E; cbn [negb]; [split; reflexivity|].
  apply Qle_bool_false in E.
  destruct (decimal_value d J E) as (x & Ex & X0 & _).
  rewrite lit_1 in Ex. rewrite Ex. cbn [odds_invalid b_not_positive isFinite negb].
  split; [reflexivity|]. rewrite lit_0. apply Qle_bool_false. exact X0.
Qed.

(** *** Splitting at the slash *)

Lemma split_length sep s :
  length (split sep s) = S (count_occ N.eq_dec s sep).
Proof.
  induction s as [|c r IH]; [reflexivity|].
  cbn [split count_occ].
  destruct (N.eqb_spec c sep) as [->|N].
  - destruct (N.eq_dec sep sep); [|contradiction]. cbn [length]. rewrite IH. reflexivity.
  - destruct (N.eq_dec c sep); [contradiction|].
    destruct (split sep r) as [|p ps]; [discriminate IH|]. exact IH.
Qed.

Lemma split_no_sep sep a : ~ In sep a -> split sep a = [a].
Proof.
  induction a as [|c r IH]; [reflexivity|].
  intros N. cbn [split].
  destruct (N.eqb_spec c sep) as [->|_]; [exfalso; apply N; left; reflexivity|].
  rewrite IH; [reflexivity|]. intros C. apply N. right. exact C.
Qed.

Lemma split_at sep a b :
  ~ In sep a -> split sep (a ++ sep :: b) = a :: split sep b.
Proof.
  induction a as [|c r IH]; intros N.
  - cbn [app split]. rewrite N.eqb_refl. reflexivity.
  - cbn [app split].
    destruct (N.eqb_spec c sep) as [->|_]; [exfalso; apply N; left; reflexivity|].
    rewrite IH; [reflexivity|]. intros C. apply N. right. exact C.
Qed.

Lemma trim_start_keeps (c : code_unit) a rest :
  is_space c = false -> trim_start (a ++ c :: rest) = trim_start a ++ c :: rest.
Proof.
  intros N. induction a as [|x r IH].
  - cbn [app trim_start]. rewrite N. reflexivity.
  - cbn [app trim_start]. destruct (is_space x); [exact IH | reflexivity].
Qed.

Lemma trim_around (c : code_unit) a b' :
  is_space c = false ->
  trim (a ++ c :: b') = trim_start a ++ c :: rev (trim_start (rev b')).
Proof.
  intros N. unfold trim. rewrite (trim_start_keeps c a b' N).
  rewrite rev_app_distr. cbn [rev]. rewrite <- app_assoc. cbn [app].
  rewrite (trim_start_keeps c (rev b') (rev (trim_start a)) N).
  rewrite rev_app_distr. cbn [rev]. rewrite rev_involutive, <- app_assoc.
  reflexivity.
Qed.

Lemma trim_start_In x s : In x (trim_start s) -> In x s.
Proof.
  destruct (trim_start_suffix s) as [pre E]. intros H.
  rewrite E. apply in_or_app. right. exact H.
Qed.

Lemma trim_start_idem s : trim_start (trim_start s) = trim_start s.
Proof. apply trim_start_fix, trim_start_head. Qed.

Lemma trim_of_trim_start s : trim (trim_start s) = trim s.
Proof. unfold trim. rewrite trim_start_idem. reflexivity. Qed.

Lemma count_trim_start (c : code_unit) s :
  is_space c = false ->
  count_occ N.eq_dec (trim_start s) c = count_occ N.eq_dec s c.
Proof.
  intros N. induction s as [|x r IH]; [reflexivity|].
  cbn [trim_start]. destruct (is_space x) eqn:E; [|reflexivity].
  cbn [count_occ]. destruct (N.eq_dec x c) as [->|_]; [congruence | exact IH].
Qed.

Lemma count_rev (c : code_unit) s :
  count_occ N.eq_dec (rev s) c = count_occ N.eq_dec s c.
Proof.
  induction s as [|x r IH]; [reflexivity|].
  cbn [rev]. rewrite count_occ_app, IH. cbn [count_occ].
  destruct (N.eq_dec x c); lia.
Qed.

Lemma count_trim (c : code_unit) s :
  is_space c = false ->
  count_occ N.eq_dec (trim s) c = count_occ N.eq_dec s c.
Proof.
  intros N. unfold trim.
  rewrite count_rev, (count_trim_start c _ N), count_rev.
  apply count_trim_start, N.
Qed.

(** X4: outside decimal format, a text that does not hold exactly one slash
    is rejected. *)
Theorem fractional_needs_one_slash s fmt :
  fmt <> "decimal"%string ->
  count_occ N.eq_dec s (code "/") <> 1%nat ->
  parseNetOdds s fmt = None.
Proof.
  intros F C. unfold parseNetOdds.
  destruct (trim s) as [|c t] eqn:E; [reflexivity|].
  destruct (String.eqb_spec fmt "decimal") as [F'|_]; [contradiction|].
  pose proof (split_length (code "/") (c :: t)) as L.
  rewrite <- E, (count_trim (code "/") s eq_refl) in L. rewrite <- E.
  destruct (split (code "/") (trim s)) as [|p0 [|p1 [|p2 ps]]]; try reflexivity.
  cbn [length] in L. exfalso. apply C. lia.
Qed.

Lemma fractional_needs_one_slash_witness :
  "fractional"%string <> "decimal"%string
  /\ count_occ N.eq_dec (of_string "1/2/3") (code "/") <> 1%nat
  /\ parseNetOdds (of_string "1/2/3") "fractional" = None.
Proof.
  assert (F : "fractional"%string <> "decimal"%string) by discriminate.
  assert (C : count_occ N.eq_dec (of_string "1/2/3") (code "/") <> 1%nat)
    by (vm_compute; discriminate).
  repeat (split; [assumption|]).
  exact (fractional_needs_one_slash _ _ F C).
Defined.

Lemma trim_start_snoc l (x : code_unit) :
  trim_start (l ++ [x])
  = match trim_start l with
    | [] => if is_space x then [] else [x]
    | t => t ++ [x]
    end.
Proof.
  induction l as [|c r IH]; [reflexivity|].
  cbn [app trim_start]. destruct (is_space c); [exact IH | reflexivity].
Qed.

Lemma trim_end_cons (x : code_unit) r :
  rev (trim_start (rev (x :: r)))
  = match rev (trim_start (rev r)) with
    | [] => if is_space x then [] else [x]
    | t => x :: t
    end.
Proof.
  cbn [rev]. rewrite trim_start_snoc.
  destruct (trim_start (rev r)) as [|c t].
  - destruct (is_space x); reflexivity.
  - rewrite rev_app_distr. cbn [rev app].
    destruct (rev t ++ [c]) eqn:E; [|reflexivity].
    apply app_eq_nil in E. destruct E as [_ E]. discriminate E.
Qed.

Lemma trim_start_end_comm s :
  trim_start (rev (trim_start (rev s)))
  = rev (trim_start (rev (trim_start s))).
Proof.
  induction s as [|x r IH]; [reflexivity|].
  rewrite trim_end_cons. cbn [trim_start].
  destruct (is_space x) eqn:E.
  - destruct (rev (trim_start (rev r))) as [|c t].
    + rewrite <- IH. reflexivity.
    + cbn [trim_start]. rewrite E. exact IH.
  - rewrite trim_end_cons.
    destruct (rev (trim_start (rev r))) as [|c t]; rewrite ?E;
      cbn [trim_start]; rewrite E; reflexivity.
Qed.

Lemma trim_of_trim_end s : trim (rev (trim_start (rev s))) = trim s.
Proof.
  unfold trim. rewrite trim_start_end_comm, rev_involutive, trim_start_idem.
  apply trim_start_end_comm.
Qed.

Lemma Number_trim_start s : Number (trim_start s) = Number s.
Proof. unfold Number. rewrite trim_of_trim_start. reflexivity. Qed.

Lemma Number_trim_end s : Number (rev (trim_start (rev s))) = Number s.
Proof. unfold Number. rewrite trim_of_trim_end. reflexivity. Qed.

(** *** White space around the text *)

Lemma trim_start_spaces l s :
  forallb is_space l = true -> trim_start (l ++ s) = trim_start s.
Proof.
  induction l as [|c l' IH]; cbn [forallb app]; [reflexivity|].
  intros H. apply andb_true_iff in H. destruct H as [C L].
  cbn [trim_start]. rewrite C. exact (IH L).
Qed.

Lemma forallb_rev (f : code_unit -> bool) l :
  forallb f l = true -> forallb f (rev l) = true.
Proof.
  intros H. apply forallb_forall. intros x X. apply in_rev in X.
  exact (proj1 (forallb_forall f l) H x X).
Qed.

Lemma trim_padded l v r :
  forallb is_space l = true -> forallb is_space r = true ->
  trim (l ++ v ++ r) = trim v.
Proof.
  intros L R. unfold trim. rewrite (trim_start_spaces l _ L).
  rewrite <- !trim_start_end_comm. rewrite rev_app_distr.
  rewrite (trim_start_spaces (rev r) _ (forallb_rev _ _ R)). reflexivity.
Qed.

(** X2: white space before and after the text, of any kind that ECMAScript
    strips (also the no-break space, the line separators and the byte order
    mark), changes the result of neither parser. *)
Theorem parsers_ignore_outer_space l v r fmt :
  forallb is_space l = true -> forallb is_space r = true ->
  parseProbability (l ++ v ++ r) fmt = parseProbability v fmt
  /\ parseNetOdds (l ++ v ++ r) fmt = parseNetOdds v fmt.
Proof.
  intros L R. split.
  - unfold parseProbability, Number. rewrite (trim_padded l v r L R).
    reflexivity.
  - unfold parseNetOdds. rewrite (trim_padded l v r L R). reflexivity.
Qed.

Lemma parsers_ignore_outer_space_witness :
  forallb is_space [160%N; 9%N] = true
  /\ forallb is_space [8232%N; 65279%N; 32%N] = true
  /\ parseProbability
       ([160%N; 9%N] ++ of_string "55" ++ [8232%N; 65279%N; 32%N]) "percent"
     = parseProbability (of_string "55") "percent"
  /\ parseNetOdds
       ([160%N; 9%N] ++ of_string "55" ++ [8232%N; 65279%N; 32%N]) "percent"
     = parseNetOdds (of_string "55") "percent".
Proof.
  split; [reflexivity|]. split; [reflexivity|].
  exact (parsers_ignore_outer_space [160%N; 9%N] (of_string "55")
           [8232%N; 65279%N; 32%N] "percent" eq_refl eq_refl).
Defined.

(** X5: outside decimal format, on a text [a/b] with no other slash,
    [parseNetOdds] is [null] unless [A = Number a] and [B = Number b] are
    finite and positive, and is then the quotient [A / B]; white space
    around the text and around each part is ignored. *)
Theorem fractional_odds a b fmt :
  fmt <> "decimal"%string -> ~ In (code "/") a -> ~ In (code "/") b ->
  parseNetOdds (a ++ code "/" :: b) fmt
  = if negb (isFinite (Number a)) || negb (isFinite (Number b))
       || le (Number b) (literal 0) || le (Number a) (literal 0)
    then None
    else Some (div (Number a) (Number b)).
Proof.
  intros F Na Nb. unfold parseNetOdds.
  rewrite (trim_around (code "/") a b eq_refl).
  destruct (trim_start a ++ code "/" :: rev (trim_start (rev b))) as [|c t] eqn:E.
  { apply app_eq_nil in E. destruct E as [_ E]. discriminate E. }
  rewrite <- E. clear E c t.
  destruct (String.eqb_spec fmt "decimal") as [F'|_]; [contradiction|].
  rewrite split_at by (intros C; apply Na, (trim_start_In _ _ C)).
  rewrite split_no_sep.
  2:{ intros C. apply Nb. apply in_rev in C. apply trim_start_In in C.
      apply in_rev. exact C. }
  rewrite !Number_trim, Number_trim_start, Number_trim_end. reflexivity.
Qed.

Lemma fractional_odds_witness :
  "fractional"%string <> "decimal"%string
  /\ ~ In (code "/") (of_string " 3 ") /\ ~ In (code "/") (of_string " 4")
  /\ parseNetOdds (of_string " 3 / 4") "fractional" = Some (Fin (3 # 4)).
Proof.
  assert (F : "fractional"%string <> "decimal"%string) by discriminate.
  assert (A : ~ In (code "/") (of_string " 3 ")).
  { cbn. intros [C|[C|[C|C]]]; try discriminate C; exact C. }
  assert (B : ~ In (code "/") (of_string " 4")).
  { cbn. intros [C|[C|C]]; try discriminate C; exact C. }
  repeat (split; [assumption|]).
  change (of_string " 3 / 4") with (of_string " 3 " ++ code "/" :: of_string " 4").
  rewrite (fractional_odds _ _ _ F A B). vm_compute. reflexivity.
Defined.

(** ** Instances *)

Lemma scenario2_valid : exists r, update log_approx scenario2 = Valid r.
Proof.
  destruct (update_success log_approx scenario2
              (literal (4 # 10)) (literal (5 # 10)))
    as (r & E & _); [vm_compute; reflexivity ..|].
  exists r. exact E.
Qed.

Lemma half_kelly_valid : exists r, update log_approx half_kelly = Valid r.
Proof.
  destruct (update_success log_approx half_kelly
              (literal (55 # 100)) (literal (11 # 10)))
    as (r & E & _); [vm_compute; reflexivity ..|].
  exists r. exact E.
Qed.

Lemma negative_multiplier_valid :
  exists r, update log_approx negative_multiplier = Valid r.
Proof.
  destruct (update_success log_approx negative_multiplier
              (literal (55 # 100)) (literal (11 # 10)))
    as (r & E & _); [vm_compute; reflexivity ..|].
  exists r. exact E.
Qed.

Lemma result_invariants_witness :
  exists r, update log_approx scenario1 = Valid r
            /\ exists c, fStarClamped r = Fin c /\ 0 <= c /\ c <= 1.
Proof.
  destruct scenario1_valid as [r E]. exists r. split; [exact E|].
  exact (proj2 (proj2 (proj2 (result_invariants log_approx scenario1 r E)))).
Defined.

Lemma fApplied_any_finite_k_witness :
  exists r, update log_approx negative_multiplier = Valid r
            /\ Number (fractionalEl negative_multiplier) = Fin (- (1))
            /\ fApplied r = Fin 0.
Proof.
  destruct negative_multiplier_valid as [r E]. exists r.
  assert (K : Number (fractionalEl negative_multiplier) = Fin (- (1)))
    by (vm_compute; reflexivity).
  split; [exact E|]. split; [exact K|].
  apply (proj2 (fApplied_any_finite_k log_approx negative_multiplier r _ E K)).
  discriminate.
Defined.

Lemma no_edge_no_stake_witness :
  exists r, update log_approx scenario2 = Valid r
            /\ Number (fractionalEl scenario2) = Fin 1
            /\ note r = true
            /\ fApplied r = Fin 0.
Proof.
  destruct scenario2_valid as [r E]. exists r.
  assert (K : Number (fractionalEl scenario2) = Fin 1)
    by (vm_compute; reflexivity).
  assert (N : note r = true).
  { destruct (update_Valid_stake log_approx scenario2 r E) as [_ ->].
    destruct (update_Valid log_approx scenario2 r E)
      as (p' & b' & EP & EB & _ & _ & _ & _ & _ & _ & -> & _).
    assert (P : parseProbability (pEl scenario2) (pFormatEl scenario2)
                = Some (literal (4 # 10))) by (vm_compute; reflexivity).
    assert (B : parseNetOdds (oddsEl scenario2) (oddsFormatEl scenario2)
                = Some (literal (5 # 10))) by (vm_compute; reflexivity).
    rewrite P in EP. rewrite B in EB.
    injection EP as EP. injection EB as EB. rewrite <- EP, <- EB.
    vm_compute. reflexivity. }
  split; [exact E|]. split; [exact K|]. split; [exact N|].
  exact (proj1 (proj2 (no_edge_no_stake log_approx scenario2 r 1 E K N))).
Defined.

Lemma stake_within_bankroll_witness :
  exists r, update log_approx scenario1 = Valid r
            /\ Number (fractionalEl scenario1) = Fin 1
            /\ stake r <> None.
Proof.
  destruct scenario1_valid as [r E]. exists r.
  assert (K : Number (fractionalEl scenario1) = Fin 1)
    by (vm_compute; reflexivity).
  split; [exact E|]. split; [exact K|].
  apply (proj1 (stake_within_bankroll log_approx scenario1 r 1 E K)).
  split; [discriminate|]. split; vm_compute; reflexivity.
Defined.

Lemma fApplied_monotone_witness :
  exists r1 r2,
    update log_approx half_kelly = Valid r1
    /\ update log_approx scenario1 = Valid r2
    /\ Number (fractionalEl half_kelly) = Fin (1 # 2)
    /\ Number (fractionalEl scenario1) = Fin 1
    /\ 1 # 2 <= 1
    /\ le (fApplied r1) (fApplied r2) = true.
Proof.
  destruct half_kelly_valid as [r1 E1]. destruct scenario1_valid as [r2 E2].
  exists r1, r2.
  assert (K1 : Number (fractionalEl half_kelly) = Fin (1 # 2))
    by (vm_compute; reflexivity).
  assert (K2 : Number (fractionalEl scenario1) = Fin 1)
    by (vm_compute; reflexivity).
  assert (K : 1 # 2 <= 1) by discriminate.
  repeat (split; [assumption|]).
  exact (proj1 (fApplied_monotone log_approx half_kelly scenario1 r1 r2 _ _
                  E1 E2 eq_refl eq_refl eq_refl eq_refl eq_refl K1 K2 K)).
Defined.

Lemma growth_of_zero_fraction_witness :
  log_approx (Fin 1) = Fin 0 /\ 0 < 1 # 2 /\ 1 # 2 < 1
  /\ expectedLogGrowth log_approx (Fin (1 # 2)) (Fin 3) (Fin 0) = Some (Fin 0).
Proof.
  assert (L : log_approx (Fin 1) = Fin 0) by (vm_compute; reflexivity).
  assert (P0 : 0 < 1 # 2) by reflexivity.
  assert (P1 : 1 # 2 < 1) by reflexivity.
  repeat (split; [assumption|]).
  exact (growth_of_zero_fraction log_approx (1 # 2) 3 L P0 P1).
Defined.

(** ** Formatting *)

Ltac digit_cases d :=
  let H := fresh in
  assert (H : (d = 0 \/ d = 1 \/ d = 2 \/ d = 3 \/ d = 4 \/ d = 5 \/ d = 6
               \/ d = 7 \/ d = 8 \/ d = 9)%Z) by lia;
  repeat (destruct H as [H|H]); subst d.

Lemma digit_of_char d : (0 <= d < 10)%Z -> digit_of 10 (digit_char d) = Some d.
Proof. intros H. digit_cases d; reflexivity. Qed.

Lemma digit_char_value d :
  (0 <= d < 10)%Z -> (Z.of_N (digit_char d) - 48 = d)%Z.
Proof. intros H. digit_cases d; reflexivity. Qed.

Lemma digit_not_space c : is_digit c -> is_space c = false.
Proof. intros (d & H & ->). digit_cases d; reflexivity. Qed.

Lemma digit_no_sign c r : is_digit c -> sign_of (c :: r) = (false, c :: r).
Proof. intros (d & H & ->). digit_cases d; reflexivity. Qed.

Lemma digit_not_Infinity c r : is_digit c -> text_eqb (c :: r) Infinity_text = false.
Proof. intros (d & H & ->). digit_cases d; reflexivity. Qed.

Lemma digit_of_base0 c : digit_of 0 c = None.
Proof.
  unfold digit_of. set (n := Z.of_N c).
  match goal with |- (if ?d <? 0 then _ else _)%Z = _ =>
    assert (E : (d <? 0)%Z = false); [|rewrite E; reflexivity] end.
  apply Z.ltb_ge.
  destruct ((48 <=? n) && (n <=? 57))%Z eqn:E1.
  { apply andb_true_iff in E1. destruct E1 as [A _]. apply Z.leb_le in A. lia. }
  destruct ((97 <=? n) && (n <=? 102))%Z eqn:E2.
  { apply andb_true_iff in E2. destruct E2 as [A _]. apply Z.leb_le in A. lia. }
  destruct ((65 <=? n) && (n <=? 70))%Z eqn:E3.
  { apply andb_true_iff in E3. destruct E3 as [A _]. apply Z.leb_le in A. lia. }
  lia.
Qed.

Lemma digits_base0 c r n acc : digits 0 acc n (c :: r) = (acc, n, c :: r).
Proof. cbn [digits]. rewrite digit_of_base0. reflexivity. Qed.

Lemma dot_not_digit : digit_of 10 (code ".") = None.
Proof. reflexivity. Qed.

Lemma digits_read t :
  Forall is_digit t ->
  forall acc n rest,
    match rest with [] => True | c :: _ => digit_of 10 c = None end ->
    digits 10 acc n (t ++ rest) = (dec_value acc t, (n + length t)%nat, rest).
Proof.
  induction 1 as [|c t (d & Hd & ->) _ IH]; intros acc n rest R.
  - cbn [app dec_value fold_left length]. rewrite Nat.add_0_r.
    destruct rest as [|c r]; [reflexivity|]. cbn [digits]. rewrite R. reflexivity.
  - cbn [app digits]. rewrite (digit_of_char d Hd), IH by exact R.
    cbn [dec_value fold_left length]. rewrite (digit_char_value d Hd).
    f_equal. f_equal. lia.
Qed.

Lemma dec_value_app acc t u :
  dec_value acc (t ++ u) = dec_value (dec_value acc t) u.
Proof. apply fold_left_app. Qed.

Lemma dec_value_zeros k t :
  dec_value 0 (repeat (code "0") k ++ t) = dec_value 0 t.
Proof.
  induction k as [|k IH]; [reflexivity|]. cbn [repeat app].
  unfold dec_value in *. cbn [fold_left]. exact IH.
Qed.

Lemma zero_is_digit : is_digit (code "0").
Proof. exists 0%Z. split; [lia | reflexivity]. Qed.

Lemma decimal_digits_spec fuel :
  forall n acc,
    (0 <= n < 10 ^ Z.of_nat fuel)%Z -> Forall is_digit acc ->
    Forall is_digit (decimal_digits fuel n acc)
    /\ dec_value 0 (decimal_digits fuel n acc) = dec_value n acc.
Proof.
  induction fuel as [|fuel IH]; intros n acc Hn Hacc.
  - cbn [decimal_digits]. change (10 ^ Z.of_nat 0)%Z with 1%Z in Hn.
    replace n with 0%Z by lia. auto.
  - cbn [decimal_digits].
    assert (Hm : (0 <= n mod 10 < 10)%Z) by (apply Z.mod_pos_bound; lia).
    assert (Hd : Forall is_digit (digit_char (n mod 10) :: acc)).
    { constructor; [exists (n mod 10)%Z; auto | exact Hacc]. }
    assert (V : forall a, dec_value a (digit_char (n mod 10) :: acc)
                          = dec_value (a * 10 + n mod 10) acc).
    { intros a. unfold dec_value. cbn [fold_left].
      rewrite (digit_char_value _ Hm). reflexivity. }
    destruct (n <? 10)%Z eqn:E.
    + apply Z.ltb_lt in E. split; [exact Hd|].
      rewrite V. f_equal. rewrite Z.mod_small by lia. lia.
    + apply Z.ltb_ge in E.
      destruct (IH (n / 10)%Z (digit_char (n mod 10) :: acc)) as [F D];
        [|exact Hd|].
      * rewrite Nat2Z.inj_succ, Z.pow_succ_r in Hn by lia.
        split; [apply Z.div_pos; lia|].
        apply Z.div_lt_upper_bound; lia.
      * split; [exact F|]. rewrite D, V. f_equal.
        pose proof (Z.div_mod n 10 ltac:(lia)). lia.
Qed.

Lemma decimal_digits_keeps fuel :
  forall m acc, acc <> [] -> decimal_digits fuel m acc <> [].
Proof.
  induction fuel as [|fuel IH]; intros m acc A; cbn [decimal_digits]; [exact A|].
  destruct (m <? 10)%Z; [discriminate|]. apply IH. discriminate.
Qed.

Lemma decimal_spec n :
  (0 <= n)%Z ->
  Forall is_digit (decimal n) /\ dec_value 0 (decimal n) = n
  /\ decimal n <> [].
Proof.
  intros Hn. unfold decimal.
  assert (B : (0 <= n < 10 ^ Z.of_nat (S (Z.to_nat (Z.log2 n))))%Z).
  { split; [exact Hn|].
    rewrite Nat2Z.inj_succ, Z2Nat.id by apply Z.log2_nonneg.
    destruct (Z.eq_dec n 0) as [->|N]; [reflexivity|].
    destruct (Z.log2_spec n ltac:(lia)) as [_ L].
    apply Z.lt_le_trans with (1 := L).
    apply Z.pow_le_mono_l. pose proof (Z.log2_nonneg n). lia. }
  destruct (decimal_digits_spec _ n [] B (Forall_nil _)) as [F D].
  split; [exact F|]. split; [exact D|].
  cbn [decimal_digits]. cbv zeta.
  destruct (n <? 10)%Z; [intros C; discriminate C|].
  apply decimal_digits_keeps. intros C; discriminate C.
Qed.

(** *** The text of [toFixed] *)

Lemma point_is_not_digit : ~ is_digit (code ".").
Proof. intros (d & H & E). digit_cases d; discriminate E. Qed.

Lemma fixed_point_parts n f :
  (0 <= n)%Z ->
  exists a tl,
    fixed_point n f = a ++ tl
    /\ Forall is_digit a /\ a <> []
    /\ ((f = 0%nat /\ tl = [] /\ dec_value 0 a = n)
        \/ (f <> 0%nat /\ exists b, tl = code "." :: b /\ Forall is_digit b
                                    /\ length b = f
                                    /\ dec_value 0 (a ++ b) = n)).
Proof.
  intros Hn. destruct (decimal_spec n Hn) as (F & V & NE).
  unfold fixed_point. destruct (Nat.eqb_spec f 0) as [->|N].
  - exists (decimal n), []. rewrite app_nil_r. auto 10.
  - set (m := if (length (decimal n) <=? f)%nat
              then repeat (code "0") (f + 1 - length (decimal n)) ++ decimal n
              else decimal n).
    assert (Fm : Forall is_digit m).
    { unfold m. destruct (_ <=? _)%nat; [|exact F].
      apply Forall_app. split; [|exact F].
      apply Forall_forall. intros c C. apply repeat_spec in C. subst c.
      apply zero_is_digit. }
    assert (Vm : dec_value 0 m = n).
    { unfold m. destruct (_ <=? _)%nat; [|exact V].
      rewrite dec_value_zeros. exact V. }
    assert (Lm : (f < length m)%nat).
    { unfold m. destruct (Nat.leb_spec (length (decimal n)) f) as [L|L]; [|exact L].
      rewrite length_app, repeat_length. lia. }
    cbv zeta.
    exists (firstn (length m - f) m), (code "." :: skipn (length m - f) m).
    rewrite <- (firstn_skipn (length m - f) m) in Fm, Vm.
    apply Forall_app in Fm. destruct Fm as [Fa Fb].
    split; [reflexivity|]. split; [exact Fa|]. split.
    { intros C. apply (f_equal (@length code_unit)) in C.
      rewrite length_firstn in C. cbn [length] in C. lia. }
    right. split; [exact N|]. exists (skipn (length m - f) m).
    split; [reflexivity|]. split; [exact Fb|]. split; [|exact Vm].
    rewrite length_skipn. lia.
Qed.

(** *** Reading it back *)

Lemma trim_no_space t :
  Forall (fun c => is_space c = false) t -> trim t = t.
Proof.
  intros F. unfold trim.
  assert (H1 : head_not_space t) by (destruct F; [exact I | assumption]).
  rewrite (trim_start_fix t H1).
  assert (F' : Forall (fun c => is_space c = false) (rev t))
    by (apply Forall_rev, F).
  assert (H2 : head_not_space (rev t)) by (destruct F'; [exact I | assumption]).
  rewrite (trim_start_fix _ H2). apply rev_involutive.
Qed.

Lemma scale10_value m f :
  scale10 m (0 - Z.of_nat f) == inject_Z m / inject_Z (10 ^ Z.of_nat f).
Proof.
  destruct f as [|f].
  - cbn. rewrite Z.mul_1_r. field.
  - rewrite Nat2Z.inj_succ, <- Zpos_P_of_succ_nat. cbn [Z.sub Z.add Z.opp scale10].
    rewrite <- Pos2Z.inj_pow. rewrite Qmake_Qdiv. reflexivity.
Qed.

Lemma read_digits_tail a tl (n : Z) f :
  Forall is_digit a -> a <> [] ->
  (f = 0%nat /\ tl = [] /\ dec_value 0 a = n)
  \/ (f <> 0%nat /\ exists b, tl = code "." :: b /\ Forall is_digit b
                              /\ length b = f /\ dec_value 0 (a ++ b) = n) ->
  unsigned_decimal (a ++ tl) = Some (scale10 n (0 - Z.of_nat f)).
Proof.
  intros Fa NE H. unfold unsigned_decimal.
  assert (La : length a <> 0%nat) by (destruct a; [contradiction | discriminate]).
  destruct H as [(-> & -> & V)|(N & b & -> & Fb & L & V)].
  - rewrite (digits_read a Fa 0%Z 0%nat [] I). cbn [Nat.add].
    destruct (Nat.eqb_spec (length a) 0) as [C|_]; [contradiction|].
    cbn [andb exponent_part]. rewrite V. reflexivity.
  - rewrite (digits_read a Fa 0%Z 0%nat (code "." :: b) dot_not_digit).
    cbn [Nat.add].
    rewrite <- (app_nil_r b) at 1.
    rewrite (digits_read b Fb (dec_value 0 a) 0%nat [] I). cbn [Nat.add].
    destruct (Nat.eqb_spec (length a) 0) as [C|_]; [contradiction|].
    cbn [andb exponent_part]. rewrite <- dec_value_app, V, L. reflexivity.
Qed.

Lemma is_digit_cases c : is_digit c -> exists d, (0 <= d < 10)%Z /\ c = digit_char d.
Proof. auto. Qed.

Lemma non_decimal_digits a tl :
  Forall is_digit a -> a <> [] ->
  (tl = [] \/ exists b, tl = code "." :: b) ->
  non_decimal (a ++ tl) = None.
Proof.
  intros Fa NE T. destruct a as [|c r]; [contradiction|].
  inversion Fa as [|? ? (d & Hd & ->) Fr]; subst.
  cbn [app].
  assert (Z0 : forall rest, non_decimal (code "0" :: rest) = None ->
                            non_decimal (digit_char d :: rest) = None).
  { intros rest H. destruct rest as [|c1 r1]; [reflexivity|].
    digit_cases d; first [exact H | reflexivity]. }
  apply Z0.
  destruct (r ++ tl) as [|c2 r2] eqn:E; [reflexivity|].
  assert (C2 : is_digit c2 \/ c2 = code ".").
  { destruct r as [|c3 r3].
    - cbn [app] in E. destruct T as [->|(b & ->)]; [discriminate E|].
      injection E as <- _. right. reflexivity.
    - cbn [app] in E. injection E as <- _. left.
      inversion Fr; assumption. }
  assert (B : non_decimal (code "0" :: c2 :: r2)
                = match digits (if N.eqb c2 (code "x") || N.eqb c2 (code "X") then 16%Z
                                else if N.eqb c2 (code "o") || N.eqb c2 (code "O") then 8%Z
                                else if N.eqb c2 (code "b") || N.eqb c2 (code "B") then 2%Z
                                else 0%Z) 0 0 r2 with
                  | (_, O, _) => None
                  | (v, _, []) => Some (inject_Z v)
                  | _ => None
                  end) by reflexivity.
  rewrite B.
  assert (Z : (if N.eqb c2 (code "x") || N.eqb c2 (code "X") then 16%Z
               else if N.eqb c2 (code "o") || N.eqb c2 (code "O") then 8%Z
               else if N.eqb c2 (code "b") || N.eqb c2 (code "B") then 2%Z
               else 0%Z) = 0%Z).
  { destruct C2 as [(d2 & H2 & ->) | ->]; [digit_cases d2|]; reflexivity. }
  rewrite Z. destruct r2 as [|c3 r3]; [reflexivity|].
  rewrite digits_base0. reflexivity.
Qed.

Lemma Number_of_digits (neg : bool) a tl v :
  Forall is_digit a -> a <> [] ->
  (tl = [] \/ exists b, tl = code "." :: b /\ Forall is_digit b) ->
  unsigned_decimal (a ++ tl) = Some v ->
  Number ((if neg then of_string "-" else []) ++ a ++ tl)
  = round64 (if neg then - v else v).
Proof.
  intros Fa NE T U.
  assert (NS : Forall (fun c => is_space c = false) (a ++ tl)).
  { apply Forall_app. split.
    - apply Forall_impl with (2 := Fa). apply digit_not_space.
    - destruct T as [->|(b & -> & Fb)]; [constructor|].
      constructor; [reflexivity|].
      apply Forall_impl with (2 := Fb). apply digit_not_space. }
  assert (ND : non_decimal (a ++ tl) = None).
  { apply non_decimal_digits; [assumption ..|].
    destruct T as [->|(b & -> & _)]; [left | right; exists b]; reflexivity. }
  destruct a as [|c r] eqn:Ea; [contradiction|]. rewrite <- Ea in *.
  assert (Hc : is_digit c) by (subst a; inversion Fa; assumption).
  unfold Number. destruct neg.
  - rewrite trim_no_space by (constructor; [reflexivity | exact NS]).
    change (of_string "-" ++ a ++ tl) with (code "-" :: (a ++ tl)).
    subst a. cbn [app] in *.
    change (non_decimal (code "-" :: c :: r ++ tl)) with (@None Q).
    change (sign_of (code "-" :: c :: r ++ tl)) with (true, c :: r ++ tl).
    cbv beta iota.
    rewrite (digit_not_Infinity c _ Hc), U. reflexivity.
  - cbn [app]. rewrite trim_no_space by exact NS.
    subst a. cbn [app] in *. rewrite ND.
    rewrite (digit_no_sign c _ Hc), (digit_not_Infinity c _ Hc), U.
    reflexivity.
Qed.

(** *** [fmt] *)

Lemma nearest_scaled a (P : Q) n y :
  0 < P -> n = Qfloor (a * P + (1 # 2)) -> y == inject_Z n / P ->
  - (1 / (2 * P)) <= y - a /\ y - a <= 1 / (2 * P).
Proof.
  intros HP -> Ey.
  pose proof (Qfloor_le (a * P + (1 # 2))) as L.
  pose proof (Qlt_floor (a * P + (1 # 2))) as U.
  rewrite inject_Z_plus in U. change (inject_Z 1) with 1 in U.
  set (np := inject_Z (Qfloor (a * P + (1 # 2)))) in *.
  assert (E1 : y - a == (np - a * P) / P) by (rewrite Ey; field; lra).
  rewrite E1. split.
  - apply Qle_shift_div_l; [exact HP|].
    assert (E2 : - (1 / (2 * P)) * P == - (1 # 2)) by (field; lra).
    rewrite E2. lra.
  - apply Qle_shift_div_r; [exact HP|].
    assert (E2 : 1 / (2 * P) * P == 1 # 2) by (field; lra).
    rewrite E2. lra.
Qed.

Lemma pow10_pos d : 0 < inject_Z (10 ^ Z.of_nat d).
Proof.
  change 0 with (inject_Z 0). rewrite <- Zlt_Qlt. apply Z.pow_pos_nonneg; lia.
Qed.

Section FormattingFacts.

Variable toString_large : Q -> text.

Lemma fmt_small x d :
  (d <= 100)%nat -> Qabs x < inject_Z (10 ^ 21) ->
  fmt toString_large (Some (Fin x)) d
  = Some ((if Qlt_le_dec x 0 then of_string "-" else [])
          ++ fixed_point (Qfloor (Qabs x * inject_Z (10 ^ Z.of_nat d) + (1 # 2))) d).
Proof.
  intros D X. unfold fmt, toFixed. cbn [isFinite negb].
  destruct (Nat.ltb_spec 100 d) as [C|_]; [lia|].
  destruct (Qle_bool (inject_Z (10 ^ 21)) (Qabs x)) eqn:E; [|reflexivity].
  apply Qle_bool_iff in E. lra.
Qed.

Lemma rounded_nonneg x d :
  (0 <= Qfloor (Qabs x * inject_Z (10 ^ Z.of_nat d) + (1 # 2)))%Z.
Proof.
  rewrite <- (Qfloor_Z 0). apply Qfloor_resp_le. change (inject_Z 0) with 0.
  pose proof (Qabs_nonneg x). pose proof (pow10_pos d). nra.
Qed.

(** X13: for a finite value below [10^21] in magnitude [fmt] gives a text with
    an optional minus sign, at least one digit, and, for [digits > 0], a
    point followed by exactly [digits] digits. *)
Theorem fmt_shape x d :
  (d <= 100)%nat -> Qabs x < inject_Z (10 ^ 21) ->
  exists a tl,
    fmt toString_large (Some (Fin x)) d
    = Some ((if Qlt_le_dec x 0 then of_string "-" else []) ++ a ++ tl)
    /\ Forall is_digit a /\ a <> []
    /\ ((d = 0%nat /\ tl = [])
        \/ (d <> 0%nat /\ exists b, tl = code "." :: b /\ Forall is_digit b
                                    /\ length b = d)).
Proof.
  intros D X. rewrite (fmt_small x d D X).
  destruct (fixed_point_parts _ d (rounded_nonneg x d))
    as (a & tl & -> & Fa & NE & [(E & T & _)|(N & b & T & Fb & L & _)]).
  - exists a, tl. auto 10.
  - exists a, tl. split; [reflexivity|]. split; [exact Fa|]. split; [exact NE|].
    right. split; [exact N|]. exists b. auto.
Qed.

(** X14: for a finite value [x] below [10^21] in magnitude, [Number] reads the
    text of [fmt x digits] back as the Number nearest to a decimal [y] that
    is within half a unit of the last shown place of [x]. *)
Theorem fmt_round_trip x d :
  (d <= 100)%nat -> Qabs x < inject_Z (10 ^ 21) ->
  exists t y,
    fmt toString_large (Some (Fin x)) d = Some t
    /\ Number t = round64 y
    /\ Qabs (y - x) <= 1 / (2 * inject_Z (10 ^ Z.of_nat d)).
Proof.
  intros D X. rewrite (fmt_small x d D X).
  set (n := Qfloor (Qabs x * inject_Z (10 ^ Z.of_nat d) + (1 # 2))).
  destruct (fixed_point_parts n d (rounded_nonneg x d))
    as (a & tl & E & Fa & NE & H).
  pose proof (read_digits_tail a tl n d Fa NE H) as U.
  assert (T : tl = [] \/ exists b, tl = code "." :: b /\ Forall is_digit b).
  { destruct H as [(_ & -> & _)|(_ & b & -> & Fb & _)];
      [left; reflexivity | right; exists b; auto]. }
  pose proof (scale10_value n d) as V.
  pose proof (pow10_pos d) as P.
  destruct (nearest_scaled (Qabs x) _ n _ P eq_refl V) as [B1 B2].
  rewrite E.
  destruct (Qlt_le_dec x 0) as [N|N].
  - exists (of_string "-" ++ a ++ tl), (- scale10 n (0 - Z.of_nat d)).
    split; [reflexivity|]. split.
    + exact (Number_of_digits true a tl _ Fa NE T U).
    + rewrite (Qabs_neg x) in B1, B2 by lra.
      apply Qabs_Qle_condition. split; lra.
  - exists (a ++ tl), (scale10 n (0 - Z.of_nat d)).
    split; [reflexivity|]. split.
    + exact (Number_of_digits false a tl _ Fa NE T U).
    + rewrite (Qabs_pos x) in B1, B2 by lra.
      apply Qabs_Qle_condition. split; lra.
Qed.

End FormattingFacts.

Lemma fmt_shape_witness :
  (1 <= 100)%nat /\ Qabs (- (5 # 4)) < inject_Z (10 ^ 21)
  /\ exists a tl,
       fmt toString_large_ref (Some (Fin (- (5 # 4)))) 1
       = Some ((if Qlt_le_dec (- (5 # 4)) 0 then of_string "-" else [])
               ++ a ++ tl)
       /\ Forall is_digit a /\ a <> []
       /\ ((1%nat = 0%nat /\ tl = [])
           \/ (1%nat <> 0%nat
               /\ exists b, tl = code "." :: b /\ Forall is_digit b
                            /\ length b = 1%nat)).
Proof.
  split; [lia|]. split; [reflexivity|].
  apply (fmt_shape toString_large_ref (- (5 # 4)) 1); [lia | reflexivity].
Defined.

Lemma fmt_round_trip_witness :
  (2 <= 100)%nat /\ Qabs (14091 # 100) < inject_Z (10 ^ 21)
  /\ exists t y,
       fmt toString_large_ref (Some (Fin (14091 # 100))) 2 = Some t
       /\ Number t = round64 y
       /\ Qabs (y - (14091 # 100)) <= 1 / (2 * inject_Z (10 ^ Z.of_nat 2)).
Proof.
  split; [lia|]. split; [reflexivity|].
  apply (fmt_round_trip toString_large_ref (14091 # 100) 2); [lia | reflexivity].
Defined.

(** ** The output fields *)

Lemma split_lines pre l :
  l <> [] -> ~ In newline pre ->
  (forall x, In x l -> ~ In newline x) ->
  split newline (pre ++ join (newline :: pre) l) = map (app pre) l.
Proof.
  intros NE P H. induction l as [|x r IH]; [contradiction|].
  destruct r as [|y r'].
  - cbn [join map]. apply split_no_sep. intros C.
    apply in_app_or in C. destruct C as [C|C]; [exact (P C)|].
    exact (H x (or_introl eq_refl) C).
  - change (join (newline :: pre) (x :: y :: r'))
      with (x ++ (newline :: pre) ++ join (newline :: pre) (y :: r')).
    cbn [app]. rewrite app_assoc.
    change (newline :: pre ++ join (newline :: pre) (y :: r'))
      with (newline :: (pre ++ join (newline :: pre) (y :: r'))).
    rewrite split_at.
    + rewrite IH; [reflexivity | discriminate |].
      intros z Z. apply H. right. exact Z.
    + intros C. apply in_app_or in C. destruct C as [C|C]; [exact (P C)|].
      exact (H x (or_introl eq_refl) C).
Qed.

Lemma validate_members p b m :
  In m (validate p b) ->
  m = problem_p_missing \/ m = problem_p_range
  \/ m = problem_odds_invalid \/ m = problem_b_positive.
Proof.
  unfold validate.
  destruct (p_missing p), (p_out_of_range p), (odds_invalid b),
    (b_not_positive b); cbn [push_if app In]; intuition auto.
Qed.

Lemma update_Invalid Math_log i ps :
  update Math_log i = Invalid ps ->
  ps <> []
  /\ ps = validate (parseProbability (pEl i) (pFormatEl i))
                   (parseNetOdds (oddsEl i) (oddsFormatEl i)).
Proof.
  unfold update.
  destruct (validate _ _) as [|m ms] eqn:V.
  - destruct (validate_nil _ _ V) as (p' & b' & -> & -> & _). discriminate.
  - intros H. injection H as <-. split; [discriminate | reflexivity].
Qed.

(** X15: on invalid input the breakdown is the heading line followed by one
    line per reported problem, in order, each after a dash and a space. *)
Theorem invalid_breakdown_lines Math_log i ps :
  update Math_log i = Invalid ps ->
  split newline (invalid_breakdown ps)
  = of_string "Fix these input issues:"
    :: map (fun p => of_string "- " ++ of_string p) ps.
Proof.
  intros H. destruct (update_Invalid Math_log i ps H) as [NE E].
  unfold invalid_breakdown.
  rewrite split_at by (vm_compute; intuition discriminate).
  f_equal.
  rewrite (split_lines (of_string "- ") (map of_string ps)).
  - rewrite map_map. reflexivity.
  - destruct ps; [contradiction | discriminate].
  - vm_compute. intuition discriminate.
  - intros x X. apply in_map_iff in X. destruct X as (m & <- & M).
    rewrite E in M. apply validate_members in M.
    destruct M as [-> | [-> | [-> | ->]]]; vm_compute; intuition discriminate.
Qed.

Lemma invalid_breakdown_lines_witness :
  update log_approx underflow_odds = Invalid [problem_b_positive]
  /\ split newline (invalid_breakdown [problem_b_positive])
     = [of_string "Fix these input issues:";
        of_string "- Net odds (b) must be > 0."].
Proof.
  assert (H : update log_approx underflow_odds = Invalid [problem_b_positive])
    by (vm_compute; reflexivity).
  split; [exact H|].
  rewrite (invalid_breakdown_lines log_approx underflow_odds _ H).
  vm_compute. reflexivity.
Defined.

Section DisplayFacts.

Variable Math_log : number -> number.
Variable toString_large : Q -> text.

Lemma toFixed_total x d :
  (d <= 100)%nat -> exists t, toFixed toString_large x d = Some t.
Proof.
  intros D. unfold toFixed.
  destruct (Nat.ltb_spec 100 d) as [C|_]; [lia|]. eexists. reflexivity.
Qed.

Lemma fmt_total x d :
  (d <= 100)%nat -> exists t, fmt toString_large x d = Some t.
Proof.
  intros D. unfold fmt. destruct x as [v|]; [|eexists; reflexivity].
  destruct (negb (isFinite v)); [eexists; reflexivity|].
  apply toFixed_total. exact D.
Qed.

Lemma fmt_four x :
  0 <= x -> x <= 1 ->
  exists t, fmt toString_large (Some (Fin x)) 4 = Some t /\ four_decimals t.
Proof.
  intros X0 X1.
  assert (A : Qabs x < inject_Z (10 ^ 21)).
  { rewrite Qabs_pos by exact X0.
    apply Qle_lt_trans with (1 := X1). reflexivity. }
  rewrite (fmt_small toString_large x 4 ltac:(lia) A).
  destruct (Qlt_le_dec x 0) as [C|_]; [lra|].
  destruct (fixed_point_parts _ 4 (rounded_nonneg x 4))
    as (a & tl & -> & Fa & NE & [(E & _)|(_ & b' & -> & Fb & L & _)]);
    [discriminate|].
  eexists. split; [reflexivity|]. exists a, b'. cbn [app]. auto.
Qed.

(** X16: with valid inputs and a finite multiplier [update] writes every field
    without a [RangeError], and the fields for q, the clamped fraction and the
    applied fraction are unsigned numbers with exactly four decimals. *)
Theorem display_success i r :
  update Math_log i = Valid r ->
  isFinite (Number (fractionalEl i)) = true ->
  exists o tf tc,
    display toString_large Math_log i = Some o
    /\ four_decimals (qOut o)
    /\ four_decimals (appliedOut o)
    /\ kellyOut o = tf ++ of_string " (raw), " ++ tc
                    ++ of_string " (clamped ≥ 0)"
    /\ four_decimals tc.
Proof.
  intros H K.
  destruct (Number (fractionalEl i)) as [| | |k] eqn:EK; try discriminate.
  destruct (fApplied_finite_k Math_log i r k H EK)
    as (c & f & Ec & C0 & C1 & _ & Ef & F0 & F1).
  destruct (update_Valid Math_log i r H)
    as (p' & b' & _ & _ & JP & _ & HP & _ & _ & Eq & _).
  destruct (q_range p' HP) as (q' & E & Q0 & Q1 & _).
  rewrite <- Eq in E.
  unfold display. rewrite H, EK. unfold show_outputs.
  destruct (toFixed_total (Fin k) 2 ltac:(lia)) as (tl & ->).
  destruct (fmt_total (Some (b r)) 4 ltac:(lia)) as (tb & ->).
  destruct (fmt_total (Some (fStar r)) 4 ltac:(lia)) as (tf & ->).
  rewrite E, Ec, Ef.
  destruct (fmt_four q' Q0 Q1) as (tq & -> & Sq).
  destruct (fmt_four c C0 C1) as (tc & -> & Sc).
  assert (F1' : f <= 1) by (unfold cap in F1; lra).
  destruct (fmt_four f F0 F1') as (ta & -> & Sa).
  assert (S : exists ts,
             match stake r with
             | None => Some (of_string "Enter bankroll to compute")
             | Some s =>
                 match fmt toString_large (Some s) 2 with
                 | Some t => Some (t ++ of_string " (units)")
                 | None => None
                 end
             end = Some ts).
  { destruct (stake r) as [s|]; [|eexists; reflexivity].
    destruct (fmt_total (Some s) 2 ltac:(lia)) as (t & ->).
    eexists. reflexivity. }
  destruct S as (ts & ->).
  assert (G : exists tg,
             match g r with
             | None => Some dash
             | Some v => fmt toString_large (Some v) 6
             end = Some tg).
  { destruct (g r) as [v|]; [|eexists; reflexivity].
    apply fmt_total. lia. }
  destruct G as (tg & ->).
  eexists. exists tf, tc. cbn [qOut appliedOut kellyOut]. auto.
Qed.

End DisplayFacts.

Lemma display_success_witness :
  isFinite (Number (fractionalEl scenario1)) = true
  /\ exists o tf tc,
       display toString_large_ref log_approx scenario1 = Some o
       /\ four_decimals (qOut o)
       /\ four_decimals (appliedOut o)
       /\ kellyOut o = tf ++ of_string " (raw), " ++ tc
                       ++ of_string " (clamped ≥ 0)"
       /\ four_decimals tc.
Proof.
  split; [vm_compute; reflexivity|].
  destruct scenario1_valid as (r & H).
  exact (display_success log_approx toString_large_ref scenario1 r H
           ltac:(vm_compute; reflexivity)).
Defined.

(** ** The list of problems *)

Lemma parseProbability_Some_finite v fmt x :
  parseProbability v fmt = Some x -> isFinite x = true.
Proof.
  unfold parseProbability.
  pose proof (js_Number v) as J.
  destruct (Number v) as [| | |y]; cbn [isFinite negb]; try discriminate.
  cbn [js_number] in J.
  destruct (div_100_finite y J) as (z & E & _).
  destruct (String.eqb fmt "percent"); rewrite ?E; intros H;
    injection H as <-; reflexivity.
Qed.

Lemma parseNetOdds_Some s fmt v :
  parseNetOdds s fmt = Some v ->
  v = PInf \/ exists y, v = Fin y /\ 0 <= y.
Proof.
  unfold parseNetOdds. cbv zeta. rewrite lit_0, lit_1. intros H.
  destruct (trim s) as [|c t]; [discriminate|].
  destruct (String.eqb fmt "decimal").
  - destruct (Number (c :: t)) as [| | |d] eqn:ED; try discriminate.
    cbn [isFinite negb orb le] in H.
    destruct (Qle_bool d 1) eqn:E; [discriminate|].
    apply Qle_bool_false in E.
    assert (V : v = round64 (d - 1)) by (injection H as <-; reflexivity).
    rewrite V.
    destruct (round64_lower 0 0 (d - 1) round64_0 ltac:(lra))
      as [->|(y & -> & Y0 & _)]; [left; reflexivity|].
    right. exists y. auto.
  - destruct (split (code "/") (c :: t)) as [|p0 [|p1 [|]]]; try discriminate.
    destruct (Number (trim p0)) as [| | |a] eqn:EA; try discriminate.
    destruct (Number (trim p1)) as [| | |b'] eqn:EB; try discriminate.
    cbn [isFinite negb orb le] in H.
    destruct (Qle_bool b' 0) eqn:E1; [discriminate|].
    destruct (Qle_bool a 0) eqn:E2; [discriminate|].
    apply Qle_bool_false in E1, E2.
    assert (V : v = div (Fin a) (Fin b')) by (injection H as <-; reflexivity).
    rewrite V, div_Fin by lra.
    assert (Q0 : 0 <= a / b') by (apply Qle_shift_div_l; lra).
    destruct (round64_lower 0 0 (a / b') round64_0 Q0)
      as [->|(y & -> & Y0 & _)]; [left; reflexivity|].
    right. exists y. auto.
Qed.

Lemma p_problems_exclusive v fmt :
  p_missing (parseProbability v fmt)
  && p_out_of_range (parseProbability v fmt) = false.
Proof.
  destruct (parseProbability v fmt) as [x|] eqn:E; [|reflexivity].
  cbn [p_missing]. rewrite (parseProbability_Some_finite v fmt x E).
  reflexivity.
Qed.

Lemma odds_problems_exclusive s fmt :
  odds_invalid (parseNetOdds s fmt)
  && b_not_positive (parseNetOdds s fmt) = false.
Proof.
  destruct (parseNetOdds s fmt) as [x|] eqn:E; [|reflexivity].
  destruct (parseNetOdds_Some s fmt x E) as [->|(y & -> & _)].
  - cbn [odds_invalid b_not_positive]. rewrite lit_0. reflexivity.
  - reflexivity.
Qed.

(** X17: an invalid run reports one or two problems, never more: at most one
    about the probability and at most one about the odds. *)
Theorem problems_exclusive Math_log i ps :
  update Math_log i = Invalid ps ->
  (1 <= length ps <= 2)%nat
  /\ ~ (In problem_p_missing ps /\ In problem_p_range ps)
  /\ ~ (In problem_odds_invalid ps /\ In problem_b_positive ps).
Proof.
  intros H. destruct (update_Invalid Math_log i ps H) as [NE E].
  pose proof (p_problems_exclusive (pEl i) (pFormatEl i)) as P.
  pose proof (odds_problems_exclusive (oddsEl i) (oddsFormatEl i)) as O.
  unfold validate in E.
  destruct (p_missing _), (p_out_of_range _); try discriminate P;
    destruct (odds_invalid _), (b_not_positive _); try discriminate O;
    cbn [push_if app] in E; subst ps; try contradiction;
    (split; [cbn [length]; lia|]);
    (split; intros [A B]; cbn [In] in A, B; intuition discriminate).
Qed.

Lemma problems_exclusive_witness :
  update log_approx underflow_odds = Invalid [problem_b_positive]
  /\ (1 <= length [problem_b_positive] <= 2)%nat
  /\ ~ (In problem_p_missing [problem_b_positive]
        /\ In problem_p_range [problem_b_positive])
  /\ ~ (In problem_odds_invalid [problem_b_positive]
        /\ In problem_b_positive [problem_b_positive]).
Proof.
  assert (H : update log_approx underflow_odds = Invalid [problem_b_positive])
    by (vm_compute; reflexivity).
  split; [exact H|].
  exact (problems_exclusive log_approx underflow_odds _ H).
Defined.
